(** * The solve orchestrator of buildkit's [llbsolver] package

    A shallow embedding of
    [components/engine/vendor/github.com/moby/buildkit/solver/llbsolver/solver.go]
    and the properties of [Solve], [Status], [inVertexContext] and
    [oneOffProgress] that its specification states.

    The Go code is effectful: it talks to a job engine, a progress sink,
    a content exporter and a cache exporter, it defers clean-up and it
    starts goroutines.  The embedding is a state monad over a record that
    holds the trace of observable events, the engine's job table and the
    counters of the clock, the identifier generator and the progress
    writers.  A computation ends with a value or with a Go panic; deferred
    calls run in both cases.  The collaborators that live outside the file
    are oracles gathered in the record [Env]. *)

From stdpp Require Import base option list strings gmap.
From Stdlib Require Import Strings.Byte.

Local Open Scope string_scope.
Local Open Scope list_scope.

(** ** Go values *)

(** A Go [error] value.  The nil error is [None] of [option error]. *)
Inductive error : Type :=
| ErrInvalidReference (ty : string)   (* errors.Errorf("invalid reference: %T", x) *)
| ErrJobNotFound (id : string)        (* the engine's lookup of an unknown job *)
| ErrJobConflict (id : string)        (* the engine's refusal of a live id *)
| ErrOther (msg : string).            (* an error made by a collaborator *)

(** [err.Error()] *)
Definition Error (e : error) : string :=
  match e with
  | ErrInvalidReference ty => "invalid reference: " +:+ ty
  | ErrJobNotFound id => "no such job " +:+ id
  | ErrJobConflict id => "job ID " +:+ id +:+ " exists"
  | ErrOther msg => msg
  end.

(** A Go [map[string]V]: [None] is the nil map, [Some l] holds the
    entries in the order in which [range] yields them (Go leaves that
    order unspecified; the statements below hold for every list). *)
Definition gomap (V : Type) : Type := option (list (string * V)).

(** [m[k]] on the entries of a map *)
Fixpoint maplookup {V} (m : list (string * V)) (k : string) : option V :=
  match m with
  | [] => None
  | (k', v) :: m' => if decide (k' = k) then Some v else maplookup m' k
  end.

(** [m[k] = v] on the entries of a map: the entry of [k] is replaced
    where it stands, a new key is added. *)
Fixpoint mapassign {V} (m : list (string * V)) (k : string) (v : V)
  : list (string * V) :=
  match m with
  | [] => [(k, v)]
  | (k', v') :: m' =>
      if decide (k' = k) then (k, v) :: m' else (k', v') :: mapassign m' k v
  end.

(** [len(m)], also of the nil map *)
Definition maplen {V} (m : gomap V) : nat :=
  match m with None => 0 | Some l => length l end.

Definition Time : Type := nat.
Definition Digest : Type := string.

(** ** The data model *)

(** [cache.ImmutableRef], a handle owned by the worker backend *)
Record ImmutableRef : Type := { imm_id : nat }.

(** The dynamic type of what [Sys()] returns: a [*worker.WorkerRef] with
    its [ImmutableRef] field, or a value of another type, whose [%T]
    name is kept. *)
Inductive SysValue : Type :=
| WorkerRef (ImmutableRef : ImmutableRef)
| OtherSys (ty : string).

(** [solver.ExportableCacheKey] *)
Record ExportableCacheKey : Type := { key_id : nat }.

(** [solver.CachedResult], with its methods [Sys()] and [CacheKeys()] *)
Record CachedResult : Type := {
  ref_id : nat;
  Sys : SysValue;
  CacheKeys : list ExportableCacheKey
}.

(** [frontend.Result] *)
Record Result : Type := {
  Ref : option CachedResult;
  Refs : gomap (option CachedResult);
  Metadata : gomap (list byte)
}.

(** [exporter.Source] *)
Record Source : Type := {
  src_Metadata : gomap (list byte);
  src_Ref : option ImmutableRef;
  src_Refs : gomap (option ImmutableRef)
}.

(** [exporter.ExporterInstance]; [Name()] is a getter, [Export] is an
    oracle of [Env]. *)
Record ExporterInstance : Type := { exp_id : nat; Name : string }.

(** [remotecache.Exporter] *)
Record remotecache_Exporter : Type := { cexp_id : nat }.

(** [solver.CacheExportMode], an integer enumeration *)
Definition solver_CacheExportMode : Type := nat.

(** The name of a package-level function passed as a value *)
Definition FuncName : Type := string.
Definition workerRefConverter : FuncName := "workerRefConverter".

(** [solver.CacheExportOpt] *)
Record CacheExportOpt : Type := {
  Convert : FuncName;
  Mode : solver_CacheExportMode
}.

Record ExporterRequest : Type := {
  Exporter : option ExporterInstance;
  CacheExporter : option remotecache_Exporter;
  CacheExportMode : solver_CacheExportMode
}.

(** [frontend.SolveRequest], opaque to this file *)
Record SolveRequest : Type := { req_id : nat }.

(** What this file reads from and adds to a [context.Context]: the
    session identifier, the job whose progress sink the context is bound
    to, and the metadata attached for progress writers. *)
Record Context : Type := {
  ctx_session : string;
  ctx_job : option string;
  ctx_meta : list (string * Digest)
}.

(** [context.TODO()] *)
Definition context_TODO : Context :=
  {| ctx_session := ""; ctx_job := None; ctx_meta := [] |}.

(** [session.FromContext] *)
Definition session_FromContext (ctx : Context) : string := ctx_session ctx.

(** [solver.Job]: [SessionID] is the field that [Solve] assigns. *)
Record Job : Type := { job_id : string; SessionID : string }.

Module client.

Record Vertex : Type := {
  Digest : Digest;
  Name : string;
  Started : option Time;
  Completed : option Time;
  Cached : bool;
  Error : string
}.

Record SolveResponse : Type := { ExporterResponse : gomap string }.

(** [client.SolveStatus], opaque to this file *)
Record SolveStatus : Type := { status_id : nat }.

End client.

Module progress.

(** The fields of [progress.Status] that this file sets *)
Record Status : Type := {
  Started : option Time;
  Completed : option Time
}.

(** A progress writer: its number and the metadata it stamps on what
    it writes. *)
Record Writer : Type := { pw_id : nat; pw_meta : list (string * Digest) }.

(** A [WriterOption], here always [progress.WithMetadata key value] *)
Definition WriterOption : Type := (string * Digest)%type.
Definition WithMetadata (key : string) (value : Digest) : WriterOption :=
  (key, value).

End progress.

(** ** Events, state and the monad *)

(** What a goroutine started by this file runs *)
Inductive Task : Type :=
| TaskRelease (ref : CachedResult) (ctx : Context).

(** What is written to a progress writer *)
Inductive ProgressValue : Type :=
| VStatus (st : progress.Status)
| VVertex (v : client.Vertex).

Inductive Event : Type :=
| EvNewJob (id : string)
| EvDiscard (id : string)
| EvBridgeSolve (job : string) (ctx : Context) (req : SolveRequest)
| EvGo (t : Task)
| EvWrite (pw : progress.Writer) (id : string) (v : ProgressValue)
| EvClose (pw : progress.Writer)
| EvExport (e : ExporterInstance) (ctx : Context) (inp : Source)
| EvExportTo (k : ExportableCacheKey) (ctx : Context) (target : remotecache_Exporter)
             (opt : CacheExportOpt)
| EvFinalize (e : remotecache_Exporter) (ctx : Context)
| EvSend (ch : nat) (st : client.SolveStatus).

Record State : Type := {
  trace : list Event;          (* the events so far, oldest first *)
  jobs : gmap string Job;      (* the live jobs of the engine *)
  nows : nat;                  (* readings of the clock so far *)
  ids : nat;                   (* identifiers generated so far *)
  pws : nat                    (* progress writers made so far *)
}.

(** The collaborators outside this file.  An oracle sees the trace so
    far, so what it answers may depend on the history of the call. *)
Record Env : Type := {
  time_Now : nat -> Time;
  identity_NewID : nat -> string;
  digest_FromBytes : string -> Digest;
  bridge_Solve : list Event -> Job -> Context -> SolveRequest -> Result + error;
  exporter_Export :
    list Event -> ExporterInstance -> Context -> Source ->
    gomap string * option error;
  key_ExportTo :
    list Event -> ExportableCacheKey -> Context -> remotecache_Exporter ->
    CacheExportOpt -> option error;
  cache_Finalize : list Event -> remotecache_Exporter -> Context -> option error;
  job_Status :
    list Event -> Job -> Context -> list client.SolveStatus * option error
}.

(** How a Go call ends: it returns, or it panics. *)
Inductive outcome (A : Type) : Type :=
| Ret (a : A)
| Panic (msg : string).
Arguments Ret {A} a.
Arguments Panic {A} msg.

Definition M (A : Type) : Type := State -> outcome A * State.

Definition ret {A} (a : A) : M A := fun s => (Ret a, s).

Definition bind {A B} (m : M A) (k : A -> M B) : M B :=
  fun s =>
    match m s with
    | (Ret a, s') => k a s'
    | (Panic msg, s') => (Panic msg, s')
    end.

Notation "'do' x <- m ; k" := (bind m (fun x => k))
  (at level 10, x name, m at level 100, k at level 200).
Notation "'do' ' p <- m ; k" := (bind m (fun x => match x with p => k end))
  (at level 10, p pattern, m at level 100, k at level 200).
Notation "'run' m ; k" := (bind m (fun _ => k))
  (at level 10, m at level 100, k at level 200).

(** [panic(msg)] *)
Definition panic {A} (msg : string) : M A := fun s => (Panic msg, s).

(** [defer d] followed by [body]: the deferred call runs when the body
    has returned and when it has panicked; a panic of the deferred call
    replaces the outcome. *)
Definition defer {A} (d : M unit) (body : M A) : M A :=
  fun s =>
    let (r, s1) := body s in
    match d s1 with
    | (Ret _, s2) => (r, s2)
    | (Panic msg, s2) => (Panic msg, s2)
    end.

Definition emit (e : Event) : M unit :=
  fun s =>
    (Ret tt,
     {| trace := trace s ++ [e]; jobs := jobs s;
        nows := nows s; ids := ids s; pws := pws s |}).

(** The answer of an oracle at the current trace *)
Definition ask {A} (f : list Event -> A) : M A := fun s => (Ret (f (trace s)), s).

(** [go t]: the goroutine is scheduled; nothing waits for it. *)
Definition go (t : Task) : M unit := emit (EvGo t).

(** ** The collaborators, as the orchestrator calls them *)

Section Collaborators.

Variable E : Env.

(** [time.Now()] *)
Definition Now : M Time :=
  fun s =>
    (Ret (time_Now E (nows s)),
     {| trace := trace s; jobs := jobs s;
        nows := S (nows s); ids := ids s; pws := pws s |}).

(** [identity.NewID()] *)
Definition NewID : M string :=
  fun s =>
    (Ret (identity_NewID E (ids s)),
     {| trace := trace s; jobs := jobs s;
        nows := nows s; ids := S (ids s); pws := pws s |}).

(** Modelled from the spec: [progress.FromContext] of the missing
    package [progress], the "context-scoped event channel accepting
    named status writes" that "supports attaching metadata (e.g., a
    correlation id) to derived contexts".  It makes a writer that
    carries the metadata of the context and of the options, and
    returns it with the context derived for it. *)
Definition FromContext (ctx : Context) (opts : list progress.WriterOption)
  : M (progress.Writer * Context) :=
  fun s =>
    let meta := ctx_meta ctx ++ opts in
    (Ret ({| progress.pw_id := pws s; progress.pw_meta := meta |},
          {| ctx_session := ctx_session ctx; ctx_job := ctx_job ctx;
             ctx_meta := meta |}),
     {| trace := trace s; jobs := jobs s;
        nows := nows s; ids := ids s; pws := S (pws s) |}).

(** [pw.Write(id, v)] and [pw.Close()] *)
Definition Write (pw : progress.Writer) (id : string) (v : ProgressValue)
  : M unit := emit (EvWrite pw id v).
Definition Close (pw : progress.Writer) : M unit := emit (EvClose pw).

(** Modelled from the spec: [NewJob], [Get] and [Discard] of the
    missing job engine ([solver.Solver], [solver.Job]).  A job is
    "created by the underlying engine on Solve", the "engine surfaces
    a conflict error" for the id of a live job, a job is "retrievable
    by id for status streaming until discarded", and the lookup "fails
    with job not found if the Job has already been discarded or never
    existed". *)
Definition NewJob (id : string) : M (Job + error) :=
  fun s =>
    match jobs s !! id with
    | Some _ => (Ret (inr (ErrJobConflict id)), s)
    | None =>
        let j := {| job_id := id; SessionID := "" |} in
        (Ret (inl j),
         {| trace := trace s ++ [EvNewJob id]; jobs := <[id := j]> (jobs s);
            nows := nows s; ids := ids s; pws := pws s |})
    end.

Definition Get (id : string) : M (Job + error) :=
  fun s =>
    match jobs s !! id with
    | Some j => (Ret (inl j), s)
    | None => (Ret (inr (ErrJobNotFound id)), s)
    end.

Definition Discard (j : Job) : M unit :=
  fun s =>
    (Ret tt,
     {| trace := trace s ++ [EvDiscard (job_id j)];
        jobs := delete (job_id j) (jobs s);
        nows := nows s; ids := ids s; pws := pws s |}).

(** [j.SessionID = sid]: [j] points into the engine's table. *)
Definition setSessionID (j : Job) (sid : string) : M Job :=
  fun s =>
    let j' := {| job_id := job_id j; SessionID := sid |} in
    (Ret j',
     {| trace := trace s; jobs := <[job_id j := j']> (jobs s);
        nows := nows s; ids := ids s; pws := pws s |}).

(** [j.Context(ctx)]: the context bound to the job's progress sink *)
Definition Job_Context (j : Job) (ctx : Context) : Context :=
  {| ctx_session := ctx_session ctx; ctx_job := Some (job_id j);
     ctx_meta := ctx_meta ctx |}.

(** [j.Status(ctx, statusChan)]: what the engine streams goes to the
    channel. *)
Definition Job_Status (j : Job) (ctx : Context) (statusChan : nat)
  : M (option error) :=
  do r <- ask (fun tr => job_Status E tr j ctx);
  fold_right (fun st k => run emit (EvSend statusChan st); k)
             (ret (snd r)) (fst r).

(** [s.Bridge(j).Solve(ctx, req)] *)
Definition Bridge_Solve (j : Job) (ctx : Context) (req : SolveRequest)
  : M (Result + error) :=
  do r <- ask (fun tr => bridge_Solve E tr j ctx req);
  run emit (EvBridgeSolve (job_id j) ctx req);
  ret r.

(** [exp.Export(ctx, inp)] *)
Definition Export (exp : ExporterInstance) (ctx : Context) (inp : Source)
  : M (gomap string * option error) :=
  do r <- ask (fun tr => exporter_Export E tr exp ctx inp);
  run emit (EvExport exp ctx inp);
  ret r.

(** [k.Exporter.ExportTo(ctx, e, opt)], of which the orchestrator
    keeps the error only *)
Definition ExportTo (k : ExportableCacheKey) (ctx : Context)
           (e : remotecache_Exporter) (opt : CacheExportOpt) : M (option error) :=
  do r <- ask (fun tr => key_ExportTo E tr k ctx e opt);
  run emit (EvExportTo k ctx e opt);
  ret r.

(** [e.Finalize(ctx)] *)
Definition Finalize (e : remotecache_Exporter) (ctx : Context) : M (option error) :=
  do r <- ask (fun tr => cache_Finalize E tr e ctx);
  run emit (EvFinalize e ctx);
  ret r.

End Collaborators.

(** ** The functions of [solver.go] *)

Section llbsolver.

Variable E : Env.

(** Modelled from the spec: the references that [res.EachRef] of the
    missing type [frontend.Result] visits, "primary first, then each
    named reference"; a nil named entry holds no reference. *)
Definition refsOf (res : Result) : list CachedResult :=
  match Ref res with Some r => [r] | None => [] end ++
  match Refs res with
  | Some l => omap snd l
  | None => []
  end.

(** Modelled from the spec: the calls of [fn] that [res.EachRef] of
    the missing type [frontend.Result] makes on the references, one
    after the other; "any failure ... short-circuits remaining refs". *)
Fixpoint eachOf (fn : CachedResult -> M (option error))
         (l : list CachedResult) : M (option error) :=
  match l with
  | [] => ret None
  | r :: l' =>
      do err <- fn r;
      match err with
      | Some e => ret (Some e)
      | None => eachOf fn l'
      end
  end.

(** Modelled from the spec: [res.EachRef(fn)] of the missing type
    [frontend.Result].  It calls [fn] "for every ref in the Result",
    in the order of [refsOf], stops at the first error and returns
    it. *)
Definition EachRef (res : Result) (fn : CachedResult -> M (option error))
  : M (option error) :=
  eachOf fn (refsOf res).

(** The closure that [oneOffProgress] returns, on the variables [pw],
    [id] and [st] that it captures; it sets the [Completed] field of
    [st] alone. *)
Definition prepareDone (pw : progress.Writer) (id : string)
           (st : progress.Status) (err : option error) : M (option error) :=
  (* TODO: set error on status *)
  do now <- Now E;
  let st := {| progress.Started := progress.Started st;
               progress.Completed := Some now |} in
  run Write pw id (VStatus st);
  run Close pw;
  ret err.

Definition oneOffProgress (ctx : Context) (id : string)
  : M (option error -> M (option error)) :=
  do '(pw, _) <- FromContext ctx [];
  do now <- Now E;
  let st := {| progress.Started := Some now; progress.Completed := None |} in
  run Write pw id (VStatus st);
  ret (prepareDone pw id st).

(** [notifyStarted]: the vertex is updated through the pointer [v];
    the updated vertex is returned. *)
Definition notifyStarted (ctx : Context) (v : client.Vertex) (cached : bool)
  : M client.Vertex :=
  do '(pw, _) <- FromContext ctx [];
  defer (Close pw)
    (do now <- Now E;
     let v := {| client.Digest := client.Digest v;
                 client.Name := client.Name v;
                 client.Started := Some now;
                 client.Completed := None;
                 client.Cached := cached;
                 client.Error := client.Error v |} in
     run Write pw (client.Digest v) (VVertex v);
     ret v).

Definition notifyCompleted (ctx : Context) (v : client.Vertex)
           (err : option error) (cached : bool) : M client.Vertex :=
  do '(pw, _) <- FromContext ctx [];
  defer (Close pw)
    (do now <- Now E;
     let v := {| client.Digest := client.Digest v;
                 client.Name := client.Name v;
                 client.Started :=
                   match client.Started v with
                   | None => Some now
                   | Some t => Some t
                   end;
                 client.Completed := Some now;
                 client.Cached := cached;
                 client.Error :=
                   match err with
                   | Some e => Error e
                   | None => client.Error v
                   end |} in
     run Write pw (client.Digest v) (VVertex v);
     ret v).

(** [inVertexContext].  A Go closure shares the variables it captures
    with the function around it: [L] is the type of the captured
    variables that [f] assigns, passed in and handed back. *)
Definition inVertexContext {L} (ctx : Context) (name : string)
           (f : Context -> L -> M (option error * L)) (captured : L)
  : M (option error * L) :=
  do id <- NewID E;
  let v := {| client.Digest := digest_FromBytes E id;
              client.Name := name;
              client.Started := None;
              client.Completed := None;
              client.Cached := false;
              client.Error := "" |} in
  do '(pw, ctx) <- FromContext ctx [progress.WithMetadata "vertex" (client.Digest v)];
  do v <- notifyStarted ctx v false;
  defer (Close pw)
    (do '(err, captured) <- f ctx captured;
     do v <- notifyCompleted ctx v err false;
     ret (err, captured)).

(** The type assertion [res.Sys().( *worker.WorkerRef)] with the error
    of its failure *)
Definition asWorkerRef (res : CachedResult) : ImmutableRef + error :=
  match Sys res with
  | WorkerRef r => inl r
  | OtherSys ty => inr (ErrInvalidReference ty)
  end.

(** The loop of lines 117-127 over the entries of [res.Refs]; [inr]
    is the return from [Solve] with that error. *)
Fixpoint rangeRefs (l : list (string * option CachedResult))
         (m : list (string * option ImmutableRef))
  : list (string * option ImmutableRef) + error :=
  match l with
  | [] => inl m
  | (k, None) :: l' => rangeRefs l' (mapassign m k None)
  | (k, Some res) :: l' =>
      match asWorkerRef res with
      | inr err => inr err
      | inl workerRef => rangeRefs l' (mapassign m k (Some workerRef))
      end
  end.

(** Lines 105-129 of [Solve]: the export source made of the Result,
    or the error that [Solve] returns. *)
Definition exportSource (res : Result) : Source + error :=
  match
    match Ref res with
    | Some r =>
        match asWorkerRef r with
        | inr err => inr err
        | inl workerRef => inl (Some workerRef)
        end
    | None => inl None
    end
  with
  | inr err => inr err
  | inl ref =>
      match Refs res with
      | None =>
          inl {| src_Metadata := Metadata res; src_Ref := ref;
                 src_Refs := None |}
      | Some l =>
          match rangeRefs l [] with
          | inr err => inr err
          | inl m =>
              inl {| src_Metadata := Metadata res; src_Ref := ref;
                     src_Refs := Some m |}
          end
      end
  end.

(** The deferred closure of lines 96-101 *)
Definition releaseRefs (res : Result) : M unit :=
  run EachRef res (fun ref =>
                     run go (TaskRelease ref context_TODO);
                     ret None);
  ret tt.

(** The closure of lines 131-134; it assigns [exporterResponse]. *)
Definition exportClosure (exp : ExporterInstance) (inp : Source)
           (ctx : Context) (exporterResponse : gomap string)
  : M (option error * gomap string) :=
  do '(exporterResponse, err) <- Export E exp ctx inp;
  ret (err, exporterResponse).

(** The callback of lines 142-149 *)
Definition exportFirstKey (e : remotecache_Exporter) (exp : ExporterRequest)
           (ctx : Context) (res : CachedResult) : M (option error) :=
  (* all keys have same export chain so exporting others is not needed *)
  match CacheKeys res with
  | [] => panic "runtime error: index out of range"
  | k :: _ =>
      ExportTo E k ctx e
               {| Convert := workerRefConverter;
                  Mode := CacheExportMode exp |}
  end.

(** The closure of lines 140-154 *)
Definition cacheExportClosure (res : Result) (e : remotecache_Exporter)
           (exp : ExporterRequest) (ctx : Context) (captured : unit)
  : M (option error * unit) :=
  do done <- oneOffProgress ctx "preparing build cache for export";
  do err <- EachRef res (exportFirstKey e exp ctx);
  match err with
  | Some _ =>
      do err <- done err;
      ret (err, captured)
  | None =>
      run done None;
      do err <- Finalize E e ctx;
      ret (err, captured)
  end.

(** Lines 103-137 of [Solve], the content export: the value of
    [exporterResponse] after it, or the error that [Solve] returns. *)
Definition Solve_export (ctx : Context) (j : Job) (res : Result)
           (exp : ExporterRequest) : M (gomap string + error) :=
  match Exporter exp with
  | None => ret (inl None)
  | Some exp =>
      match exportSource res with
      | inr err => ret (inr err)
      | inl inp =>
          do '(err, exporterResponse) <-
            inVertexContext (Job_Context j ctx) (Name exp)
                            (exportClosure exp inp) None;
          match err with
          | Some err => ret (inr err)
          | None => ret (inl exporterResponse)
          end
      end
  end.

(** Lines 139-157 of [Solve], the cache export: the error that
    [Solve] returns, if any. *)
Definition Solve_cacheExport (ctx : Context) (j : Job) (res : Result)
           (exp : ExporterRequest) : M (option error) :=
  match CacheExporter exp with
  | None => ret None
  | Some e =>
      do '(err, _) <-
        inVertexContext (Job_Context j ctx) "exporting cache"
                        (cacheExportClosure res e exp) tt;
      ret err
  end.

(** Lines 103-161 of [Solve]: what runs between the two [defer]
    statements and the return. *)
Definition Solve_phases (ctx : Context) (j : Job) (res : Result)
           (exp : ExporterRequest)
  : M (option client.SolveResponse * option error) :=
  do r <- Solve_export ctx j res exp;
  match r with
  | inr err => ret (None, Some err)
  | inl exporterResponse =>
      do err <- Solve_cacheExport ctx j res exp;
      match err with
      | Some err => ret (None, Some err)
      | None =>
          ret (Some {| client.ExporterResponse := exporterResponse |}, None)
      end
  end.

Definition Solve (ctx : Context) (id : string) (req : SolveRequest)
           (exp : ExporterRequest)
  : M (option client.SolveResponse * option error) :=
  do r <- NewJob id;
  match r with
  | inr err => ret (None, Some err)
  | inl j =>
      defer (Discard j)
        (do j <- setSessionID j (session_FromContext ctx);
         do r <- Bridge_Solve E j ctx req;
         match r with
         | inr err => ret (None, Some err)
         | inl res =>
             defer (releaseRefs res) (Solve_phases ctx j res exp)
         end)
  end.

Definition Status (ctx : Context) (id : string) (statusChan : nat)
  : M (option error) :=
  do r <- Get id;
  match r with
  | inr err => ret (Some err)
  | inl j => Job_Status E j ctx statusChan
  end.

End llbsolver.

(** ** Reading a trace *)

(** The goroutines that a trace starts *)
Definition goTasks (l : list Event) : list Task :=
  omap (fun e => match e with EvGo t => Some t | _ => None end) l.

(** The [ExportTo] calls of a trace: key, target and options *)
Definition exportToCalls (l : list Event)
  : list (ExportableCacheKey * remotecache_Exporter * CacheExportOpt) :=
  omap (fun e => match e with
                 | EvExportTo k _ target opt => Some (k, target, opt)
                 | _ => None
                 end) l.

(** The [ExportTo] call that the cache export makes for each reference
    of a list: the first cache key, the cache exporter, the options. *)
Definition firstKeyCalls (e : remotecache_Exporter) (opt : CacheExportOpt)
           (l : list CachedResult)
  : list (ExportableCacheKey * remotecache_Exporter * CacheExportOpt) :=
  omap (fun r => (fun k => (k, e, opt)) <$> head (CacheKeys r)) l.

(** The events of the progress sink *)
Definition isProgress (e : Event) : bool :=
  match e with EvWrite _ _ _ | EvClose _ => true | _ => false end.

(** A vertex written to the progress sink *)
Definition isVertexWrite (e : Event) : bool :=
  match e with EvWrite _ _ (VVertex _) => true | _ => false end.

(** The events of the content export: the progress sink and [Export] *)
Definition isContentExport (e : Event) : bool :=
  match e with EvWrite _ _ _ | EvClose _ | EvExport _ _ _ => true | _ => false end.

(** The events of the two export phases *)
Definition isPhase (e : Event) : bool :=
  match e with
  | EvWrite _ _ _ | EvClose _ | EvExport _ _ _ | EvExportTo _ _ _ _
  | EvFinalize _ _ => true
  | _ => false
  end.

(** The state with more events in its trace *)
Definition addEvents (s : State) (evs : list Event) : State :=
  {| trace := trace s ++ evs; jobs := jobs s;
     nows := nows s; ids := ids s; pws := pws s |}.

(** A computation that only adds events of a kind to the trace and
    leaves the job table alone *)
Definition emits (P : Event -> bool) {A} (m : M A) : Prop :=
  forall s, exists evs,
    trace (m s).2 = trace s ++ evs /\ forallb P evs = true /\
    jobs (m s).2 = jobs s.

(** ** Values to run the model on *)

Definition ref1 : CachedResult :=
  {| ref_id := 1; Sys := WorkerRef {| imm_id := 1 |};
     CacheKeys := [ {| key_id := 10 |}; {| key_id := 11 |} ] |}.
Definition ref2 : CachedResult :=
  {| ref_id := 2; Sys := WorkerRef {| imm_id := 2 |};
     CacheKeys := [ {| key_id := 20 |} ] |}.
Definition refBad : CachedResult :=
  {| ref_id := 3; Sys := OtherSys "*foo.Ref";
     CacheKeys := [ {| key_id := 30 |} ] |}.
Definition refNoKeys : CachedResult :=
  {| ref_id := 4; Sys := WorkerRef {| imm_id := 4 |}; CacheKeys := [] |}.

Definition res12 : Result :=
  {| Ref := Some ref1; Refs := Some [("a", Some ref2); ("b", None)];
     Metadata := None |}.

Definition imageExporter : ExporterInstance := {| exp_id := 1; Name := "image" |}.
Definition registryCache : remotecache_Exporter := {| cexp_id := 1 |}.

(** An environment whose solve step answers [r], whose content exporter
    answers [x], whose [ExportTo] answers by [t] on the key, and whose
    [Finalize] answers [f]. *)
Definition mkEnv (r : Result + error) (x : gomap string * option error)
           (t : ExportableCacheKey -> option error) (f : option error) : Env :=
  {| time_Now := fun n => 100 + n;
     identity_NewID := fun n => String (Ascii.ascii_of_nat (97 + n)) "";
     digest_FromBytes := fun b => "sha256:" +:+ b;
     bridge_Solve := fun _ _ _ _ => r;
     exporter_Export := fun _ _ _ _ => x;
     key_ExportTo := fun _ k _ _ _ => t k;
     cache_Finalize := fun _ _ _ => f;
     job_Status := fun _ _ _ => ([], None) |}.

Definition state0 : State :=
  {| trace := []; jobs := ∅; nows := 0; ids := 0; pws := 0 |}.

Definition ctx0 : Context :=
  {| ctx_session := "sess"; ctx_job := None; ctx_meta := [] |}.

Definition req0 : SolveRequest := {| req_id := 0 |}.

(** ** The states and the events of a call *)

(** The goroutine that releases a reference *)
Definition release (ref : CachedResult) : Event :=
  EvGo (TaskRelease ref context_TODO).

(** The job of a call, once its session identifier is set *)
Definition jobOf (ctx : Context) (id : string) : Job :=
  {| job_id := id; SessionID := session_FromContext ctx |}.

(** The state in which the solve step of a call has returned *)
Definition solved (s : State) (ctx : Context) (id : string)
           (req : SolveRequest) : State :=
  {| trace := trace s ++ [EvNewJob id; EvBridgeSolve id ctx req];
     jobs := <[id := jobOf ctx id]> (jobs s);
     nows := nows s; ids := ids s; pws := pws s |}.

(** The state in which a call whose phases ended in [s1] returns: the
    references of [refs] are released and the job is discarded. *)
Definition returned (s1 : State) (id : string) (refs : list CachedResult)
  : State :=
  {| trace := trace s1 ++ map release refs ++ [EvDiscard id];
     jobs := delete id (jobs s1);
     nows := nows s1; ids := ids s1; pws := pws s1 |}.

(** The discard of a job *)
Definition isDiscard (e : Event) : bool :=
  match e with EvDiscard _ => true | _ => false end.

(** The identity of the vertex that [inVertexContext] makes in [s] *)
Definition vertexDigest (E : Env) (s : State) : Digest :=
  digest_FromBytes E (identity_NewID E (ids s)).

(** The context that the phase function runs in *)
Definition childContext (E : Env) (ctx : Context) (s : State) : Context :=
  {| ctx_session := ctx_session ctx; ctx_job := ctx_job ctx;
     ctx_meta := ctx_meta ctx ++ [("vertex", vertexDigest E s)] |}.

(** The writer of [inVertexContext] and the one of its [notifyStarted] *)
Definition vertexWriter (E : Env) (ctx : Context) (s : State) (n : nat)
  : progress.Writer :=
  {| progress.pw_id := n; progress.pw_meta := ctx_meta (childContext E ctx s) |}.

(** The vertex as [notifyStarted] writes it *)
Definition startedVertex (E : Env) (name : string) (s : State) : client.Vertex :=
  {| client.Digest := vertexDigest E s;
     client.Name := name;
     client.Started := Some (time_Now E (nows s));
     client.Completed := None;
     client.Cached := false;
     client.Error := "" |}.

(** The vertex as [notifyCompleted] writes it when the phase function
    has ended in [s2] with [err] *)
Definition completedVertex (E : Env) (name : string) (s s2 : State)
           (err : option error) : client.Vertex :=
  {| client.Digest := vertexDigest E s;
     client.Name := name;
     client.Started := Some (time_Now E (nows s));
     client.Completed := Some (time_Now E (nows s2));
     client.Cached := false;
     client.Error := match err with Some e => Error e | None => "" end |}.

(** The state in which the phase function starts *)
Definition startedState (E : Env) (ctx : Context) (name : string) (s : State)
  : State :=
  {| trace := trace s ++
              [EvWrite (vertexWriter E ctx s (S (pws s))) (vertexDigest E s)
                       (VVertex (startedVertex E name s));
               EvClose (vertexWriter E ctx s (S (pws s)))];
     jobs := jobs s;
     nows := S (nows s); ids := S (ids s); pws := S (S (pws s)) |}.

(** The state in which [inVertexContext] returns when the phase
    function has ended in [s2] with [err] *)
Definition completedState (E : Env) (ctx : Context) (name : string)
           (s s2 : State) (err : option error) : State :=
  {| trace := trace s2 ++
              [EvWrite (vertexWriter E ctx s (pws s2)) (vertexDigest E s)
                       (VVertex (completedVertex E name s s2 err));
               EvClose (vertexWriter E ctx s (pws s2));
               EvClose (vertexWriter E ctx s (pws s))];
     jobs := jobs s2;
     nows := S (nows s2); ids := ids s2; pws := S (pws s2) |}.

(** A phase function that writes nothing and fails *)
Definition failingPhase (ctx : Context) (captured : nat)
  : M (option error * nat) :=
  ret (Some (ErrOther "boom"), S captured).

(** The [ImmutableRef] of a reference of the worker backend *)
Definition immOf (r : CachedResult) : option ImmutableRef :=
  match Sys r with
  | WorkerRef w => Some w
  | OtherSys _ => None
  end.

(** The entry of the export source made of an entry of [res.Refs] *)
Definition sourceEntry (kv : string * option CachedResult)
  : string * option ImmutableRef :=
  (kv.1, kv.2 ≫= immOf).

(** The options of every [ExportTo] call of a cache export *)
Definition exportOpt (exp : ExporterRequest) : CacheExportOpt :=
  {| Convert := workerRefConverter; Mode := CacheExportMode exp |}.

(** The [ExportTo] events of the references of a list that have a cache
    key: one for each, on its first key. *)
Definition exportToEvents (ctx : Context) (e : remotecache_Exporter)
           (opt : CacheExportOpt) (l : list CachedResult) : list Event :=
  omap (fun r => (fun k => EvExportTo k ctx e opt) <$> head (CacheKeys r)) l.

(** The marker "preparing build cache for export" *)
Definition marker : string := "preparing build cache for export".

(** The writer of the marker made in [s] *)
Definition markerWriter (ctx : Context) (s : State) : progress.Writer :=
  {| progress.pw_id := pws s; progress.pw_meta := ctx_meta ctx |}.

(** The state after [oneOffProgress] in [s] *)
Definition markerStarted (E : Env) (ctx : Context) (s : State) : State :=
  {| trace := trace s ++
              [EvWrite (markerWriter ctx s) marker
                       (VStatus {| progress.Started := Some (time_Now E (nows s));
                                   progress.Completed := None |})];
     jobs := jobs s;
     nows := S (nows s); ids := ids s; pws := S (pws s) |}.

(** The state after the closure of [oneOffProgress], made in [s], has
    run in [s2]; the error given to the closure leaves no mark. *)
Definition markerDone (E : Env) (ctx : Context) (s s2 : State) : State :=
  {| trace := trace s2 ++
              [EvWrite (markerWriter ctx s) marker
                       (VStatus {| progress.Started := Some (time_Now E (nows s));
                                   progress.Completed :=
                                     Some (time_Now E (nows s2)) |});
               EvClose (markerWriter ctx s)];
     jobs := jobs s2;
     nows := S (nows s2); ids := ids s2; pws := pws s2 |}.

(** How a cache export that handled the first [n] references of [refs]
    may have ended with the error [err]: [Finalize] failed after all of
    them, or the [ExportTo] call of reference [n - 1] failed. *)
Definition cacheExportFailed (E : Env) (e : remotecache_Exporter)
           (exp : ExporterRequest) (refs : list CachedResult) (n : nat)
           (err : error) : Prop :=
  n = length refs
  \/ exists i r k tr c,
      n = S i /\ refs !! i = Some r /\ head (CacheKeys r) = Some k
      /\ key_ExportTo E tr k c e (exportOpt exp) = Some err.

(** ** Calls to run the model on *)

(** Every collaborator succeeds. *)
Definition envOk : Env :=
  mkEnv (inl res12) (Some [("image.name", "app")], None) (fun _ => None) None.

(** The [ExportTo] call on the first cache key of [ref1] fails. *)
Definition envFirstKeyFails : Env :=
  mkEnv (inl res12) (Some [("image.name", "app")], None)
        (fun k => if decide (key_id k = 10) then Some (ErrOther "boom") else None)
        None.

(** The content exporter fails. *)
Definition envContentFails : Env :=
  mkEnv (inl res12) (None, Some (ErrOther "push failed")) (fun _ => None) None.

(** The solve step fails. *)
Definition envSolveFails : Env :=
  mkEnv (inr (ErrOther "solve failed")) (None, None) (fun _ => None) None.

(** A Result with a named reference of another backend *)
Definition resBad : Result :=
  {| Ref := Some ref1; Refs := Some [("a", None); ("b", Some refBad)];
     Metadata := None |}.

(** A Result whose named reference has no cache key *)
Definition resNoKeys : Result :=
  {| Ref := Some ref1; Refs := Some [("a", Some refNoKeys)]; Metadata := None |}.

Definition xrNone : ExporterRequest :=
  {| Exporter := None; CacheExporter := None; CacheExportMode := 0 |}.
Definition xrContent : ExporterRequest :=
  {| Exporter := Some imageExporter; CacheExporter := None;
     CacheExportMode := 0 |}.
Definition xrCache : ExporterRequest :=
  {| Exporter := None; CacheExporter := Some registryCache;
     CacheExportMode := 1 |}.
Definition xrBoth : ExporterRequest :=
  {| Exporter := Some imageExporter; CacheExporter := Some registryCache;
     CacheExportMode := 1 |}.

(** ** The construction of the orchestrator: [New], [resolver], [Bridge] *)

(** [specs.Platform] *)
Record Platform : Type := { OS : string; Architecture : string }.

(** [worker.Worker], with its method [Platforms()]; its method
    [ResolveOp] is a parameter of the functions below. *)
Record Worker : Type := { worker_id : nat; Platforms : list Platform }.

(** [frontend.Frontend], [solver.CacheManager], [solver.Builder],
    [solver.Vertex] and [solver.Op], opaque to this file *)
Record Frontend : Type := { frontend_id : nat }.
Record solver_CacheManager : Type := { cm_id : nat }.
Record solver_Builder : Type := { builder_id : string }.
Record solver_Vertex : Type := { vertex_id : nat }.
Record solver_Op : Type := { op_id : nat }.

(** A [remotecache.ResolveCacheImporterFunc]: a function value that
    this file stores and hands on, and never calls. *)
Record ResolveCacheImporterFunc : Type := { importer_id : nat }.

(** [ResolveWorkerFunc], [func() (worker.Worker, error)].  The closures
    of this type made in this file capture the pointer to the worker
    controller: what they return is a function of what the controller
    holds when they are called, the type [Controller]. *)
Definition ResolveWorkerFunc (Controller : Type) : Type :=
  Controller -> Worker + error.

(** [solver.Solver], the engine made by [solver.NewSolver]: its option
    [DefaultCache]; its option [ResolveOpFunc] is the closure
    [s.resolver()] over the [Solver] that holds the engine. *)
Record solver_Solver : Type := { DefaultCache : solver_CacheManager }.

(** The struct [Solver] *)
Record Solver (Controller : Type) : Type := {
  solver : solver_Solver;
  resolveWorker : ResolveWorkerFunc Controller;
  frontends : gomap Frontend;
  resolveCacheImporter : ResolveCacheImporterFunc;
  platforms : list Platform
}.
Arguments solver {Controller} _.
Arguments resolveWorker {Controller} _.
Arguments frontends {Controller} _.
Arguments resolveCacheImporter {Controller} _.
Arguments platforms {Controller} _.

Module bridge.

(** The struct [llbBridge], with the fields that [Bridge] sets *)
Record llbBridge (Controller : Type) : Type := {
  builder : solver_Builder;
  frontends : gomap Frontend;
  resolveWorker : ResolveWorkerFunc Controller;
  resolveCacheImporter : ResolveCacheImporterFunc;
  cms : gomap solver_CacheManager;
  platforms : list Platform
}.
Arguments builder {Controller} _.
Arguments frontends {Controller} _.
Arguments resolveWorker {Controller} _.
Arguments resolveCacheImporter {Controller} _.
Arguments cms {Controller} _.
Arguments platforms {Controller} _.

End bridge.

Section Construction.

(** What the worker controller holds, and its method [GetDefault] *)
Variable Controller : Type.
Variable GetDefault : Controller -> Worker + error.

(** The method [ResolveOp] of a worker *)
Variable ResolveOp :
  Worker -> solver_Vertex -> bridge.llbBridge Controller -> solver_Op + error.

Definition defaultResolver : ResolveWorkerFunc Controller :=
  fun wc => GetDefault wc.

Definition Bridge (s : Solver Controller) (b : solver_Builder)
  : bridge.llbBridge Controller :=
  {| bridge.builder := b;
     bridge.frontends := frontends s;
     bridge.resolveWorker := resolveWorker s;
     bridge.resolveCacheImporter := resolveCacheImporter s;
     bridge.cms := Some [];
     bridge.platforms := platforms s |}.

(** [s.resolver()], called when the controller holds [wc] *)
Definition resolver (s : Solver Controller) (wc : Controller)
           (v : solver_Vertex) (b : solver_Builder) : solver_Op + error :=
  match resolveWorker s wc with
  | inr err => inr err
  | inl w => ResolveOp w v (Bridge s b)
  end.

(** [New], called when the controller holds [wc] *)
Definition New (wc : Controller) (f : gomap Frontend)
           (cache : solver_CacheManager) (resolveCI : ResolveCacheImporterFunc)
  : Solver Controller + error :=
  (* executing is currently only allowed on default worker *)
  match GetDefault wc with
  | inr err => inr err
  | inl w =>
      inl {| solver := {| DefaultCache := cache |};
             resolveWorker := defaultResolver;
             frontends := f;
             resolveCacheImporter := resolveCI;
             platforms := Platforms w |}
  end.

End Construction.

Arguments defaultResolver {Controller} GetDefault.
Arguments Bridge {Controller} s b.
Arguments resolver {Controller} ResolveOp s wc v b.
Arguments New {Controller} GetDefault wc f cache resolveCI.

(** A controller that holds a list of workers, the first of which is
    the default one *)
Definition firstWorker (wc : list Worker) : Worker + error :=
  match wc with
  | [] => inr (ErrOther "no default worker")
  | w :: _ => inl w
  end.

Definition linuxWorker : Worker :=
  {| worker_id := 1;
     Platforms := [ {| OS := "linux"; Architecture := "amd64" |} ] |}.
Definition armWorker : Worker :=
  {| worker_id := 2;
     Platforms := [ {| OS := "linux"; Architecture := "arm64" |} ] |}.

(** A [ResolveOp] that answers with the number of the worker *)
Definition opOfWorker (w : Worker) (v : solver_Vertex)
           (b : bridge.llbBridge (list Worker)) : solver_Op + error :=
  inl {| op_id := worker_id w |}.

(** ** More readers of a trace *)

(** The [Export] calls of a trace: exporter and source *)
Definition exportCalls (l : list Event) : list (ExporterInstance * Source) :=
  omap (fun e => match e with
                 | EvExport x _ inp => Some (x, inp)
                 | _ => None
                 end) l.

(** The [Finalize] calls of a trace *)
Definition finalizeCalls (l : list Event) : list remotecache_Exporter :=
  omap (fun e => match e with EvFinalize x _ => Some x | _ => None end) l.

(** The numbers of the progress writers that a trace closes *)
Definition closedWriters (l : list Event) : list nat :=
  omap (fun e => match e with
                 | EvClose pw => Some (progress.pw_id pw)
                 | _ => None
                 end) l.

(** The events of the cache export: the progress sink, [ExportTo] and
    [Finalize] *)
Definition isCacheExport (e : Event) : bool :=
  match e with
  | EvWrite _ _ _ | EvClose _ | EvExportTo _ _ _ _ | EvFinalize _ _ => true
  | _ => false
  end.

(** An event of a phase that runs in the context [c]: a write or a
    close of a writer with the metadata of [c], or a call of an exporter
    with [c]. *)
Definition inContext (c : Context) (e : Event) : Prop :=
  match e with
  | EvWrite pw _ _ | EvClose pw => progress.pw_meta pw = ctx_meta c
  | EvExport _ c' _ | EvExportTo _ c' _ _ | EvFinalize _ c' => c' = c
  | _ => False
  end.

(** The context of the phases of a call, tagged with the vertex [d] *)
Definition phaseContext (ctx : Context) (id : string) (d : Digest) : Context :=
  {| ctx_session := ctx_session ctx; ctx_job := Some id;
     ctx_meta := ctx_meta ctx ++ [("vertex", d)] |}.

(** ** How the combinators treat the trace *)

Section Emits.

Variable E : Env.
Variable P : Event -> bool.

Lemma emits_ret {A} (a : A) : emits P (ret a).
Proof. intros s. exists []. simpl. by rewrite app_nil_r. Qed.

Lemma emits_panic {A} msg : emits P (@panic A msg).
Proof. intros s. exists []. simpl. by rewrite app_nil_r. Qed.

Lemma emits_ask {A} (f : list Event -> A) : emits P (ask f).
Proof. intros s. exists []. simpl. by rewrite app_nil_r. Qed.

Lemma emits_emit e : P e = true -> emits P (emit e).
Proof. intros He s. exists [e]. simpl. by rewrite He. Qed.

Lemma emits_Now : emits P (Now E).
Proof. intros s. exists []. simpl. by rewrite app_nil_r. Qed.

Lemma emits_NewID : emits P (NewID E).
Proof. intros s. exists []. simpl. by rewrite app_nil_r. Qed.

Lemma emits_FromContext ctx opts : emits P (FromContext ctx opts).
Proof. intros s. exists []. simpl. by rewrite app_nil_r. Qed.

Lemma emits_bind {A B} (m : M A) (k : A -> M B) :
  emits P m -> (forall a, emits P (k a)) -> emits P (bind m k).
Proof.
  intros Hm Hk s. unfold bind.
  destruct (Hm s) as (evs1 & Ht1 & Hp1 & Hj1).
  destruct (m s) as [[a|msg] s1]; simpl in *.
  - destruct (Hk a s1) as (evs2 & Ht2 & Hp2 & Hj2).
    exists (evs1 ++ evs2). rewrite Ht2, Ht1, Hj2, Hj1, forallb_app, Hp1, Hp2.
    by rewrite app_assoc.
  - by exists evs1.
Qed.

Lemma emits_bind_post {A B} (Q : A -> Prop) (m : M A) (k : A -> M B) :
  (forall s a s', m s = (Ret a, s') -> Q a) ->
  emits P m -> (forall a, Q a -> emits P (k a)) -> emits P (bind m k).
Proof.
  intros HQ Hm Hk s. unfold bind.
  destruct (Hm s) as (evs1 & Ht1 & Hp1 & Hj1).
  destruct (m s) as [[a|msg] s1] eqn:Hms; simpl in *.
  - destruct (Hk a (HQ _ _ _ Hms) s1) as (evs2 & Ht2 & Hp2 & Hj2).
    exists (evs1 ++ evs2). rewrite Ht2, Ht1, Hj2, Hj1, forallb_app, Hp1, Hp2.
    by rewrite app_assoc.
  - by exists evs1.
Qed.

Lemma emits_defer {A} (d : M unit) (body : M A) :
  emits P d -> emits P body -> emits P (defer d body).
Proof.
  intros Hd Hb s. unfold defer.
  destruct (Hb s) as (evs1 & Ht1 & Hp1 & Hj1).
  destruct (body s) as [r s1]; simpl in *.
  destruct (Hd s1) as (evs2 & Ht2 & Hp2 & Hj2).
  exists (evs1 ++ evs2).
  destruct (d s1) as [[u|msg] s2]; simpl in *;
    rewrite Ht2, Ht1, Hj2, Hj1, forallb_app, Hp1, Hp2;
    by rewrite app_assoc.
Qed.

End Emits.

Lemma emits_weaken (P Q : Event -> bool) {A} (m : M A) :
  (forall e, P e = true -> Q e = true) -> emits P m -> emits Q m.
Proof.
  intros HPQ Hm s. destruct (Hm s) as (evs & Ht & Hp & Hj).
  exists evs. split_and!; [done | | done].
  rewrite forallb_forall in *. intros e He. by apply HPQ, Hp.
Qed.

(** One step of the proof that a computation made of the combinators
    emits events of a kind *)
Ltac emits_step :=
  match goal with
  | |- emits _ (bind _ _) => apply emits_bind
  | |- emits _ (defer _ _) => apply emits_defer
  | |- emits _ (ret _) => apply emits_ret
  | |- emits _ (panic _) => apply emits_panic
  | |- emits _ (ask _) => apply emits_ask
  | |- emits _ (Now _) => apply emits_Now
  | |- emits _ (NewID _) => apply emits_NewID
  | |- emits _ (FromContext _ _) => apply emits_FromContext
  | |- emits _ (emit _) => apply emits_emit; reflexivity
  | |- emits _ (Write _ _ _) => apply emits_emit; reflexivity
  | |- emits _ (Close _) => apply emits_emit; reflexivity
  | |- emits _ (go _) => apply emits_emit; reflexivity
  | |- forall _, _ => intro
  | |- emits _ (match ?x with _ => _ end) => destruct x
  end.

Section Facts.

Variable E : Env.

Lemma emits_eachOf P fn l :
  (forall r, emits P (fn r)) -> emits P (eachOf fn l).
Proof.
  intros Hfn. induction l as [|r l IH]; simpl.
  - apply emits_ret.
  - apply emits_bind; [apply Hfn|]. intros [e|]; [apply emits_ret | apply IH].
Qed.

Lemma emits_oneOffProgress P ctx id :
  (forall e, isProgress e = true -> P e = true) ->
  emits P (oneOffProgress E ctx id).
Proof.
  intros HP. apply (emits_weaken isProgress); [done|].
  unfold oneOffProgress. repeat emits_step.
Qed.

Lemma emits_prepareDone P pw id st err :
  (forall e, isProgress e = true -> P e = true) ->
  emits P (prepareDone E pw id st err).
Proof.
  intros HP. apply (emits_weaken isProgress); [done|].
  unfold prepareDone. repeat emits_step.
Qed.

Lemma oneOffProgress_closure ctx id s done s' :
  oneOffProgress E ctx id s = (Ret done, s') ->
  exists pw st, done = prepareDone E pw id st.
Proof.
  unfold oneOffProgress. simpl. intros Hrun. inversion Hrun. eauto.
Qed.

Lemma emits_notifyStarted ctx v cached :
  emits isProgress (notifyStarted E ctx v cached).
Proof. unfold notifyStarted. repeat emits_step. Qed.

Lemma emits_notifyCompleted ctx v err cached :
  emits isProgress (notifyCompleted E ctx v err cached).
Proof. unfold notifyCompleted. repeat emits_step. Qed.

Lemma emits_inVertexContext P {L} ctx name
      (f : Context -> L -> M (option error * L)) captured :
  (forall e, isProgress e = true -> P e = true) ->
  (forall c l, emits P (f c l)) ->
  emits P (inVertexContext E ctx name f captured).
Proof.
  intros HP Hf. unfold inVertexContext.
  repeat first
    [ apply (emits_weaken isProgress P _ HP), emits_notifyStarted
    | apply (emits_weaken isProgress P _ HP), emits_notifyCompleted
    | apply Hf
    | apply emits_emit; apply HP; reflexivity
    | emits_step ].
Qed.

End Facts.

(** ** The phases of [Solve] *)

Section Phases.

Variable E : Env.

Lemma emits_Export P exp ctx inp :
  P (EvExport exp ctx inp) = true -> emits P (Export E exp ctx inp).
Proof.
  intros HP. unfold Export.
  repeat first [ apply emits_emit, HP | emits_step ].
Qed.

Lemma emits_ExportTo P k ctx e opt :
  P (EvExportTo k ctx e opt) = true -> emits P (ExportTo E k ctx e opt).
Proof.
  intros HP. unfold ExportTo.
  repeat first [ apply emits_emit, HP | emits_step ].
Qed.

Lemma emits_Finalize P e ctx :
  P (EvFinalize e ctx) = true -> emits P (Finalize E e ctx).
Proof.
  intros HP. unfold Finalize.
  repeat first [ apply emits_emit, HP | emits_step ].
Qed.

Lemma emits_Solve_export ctx j res exp :
  emits isContentExport (Solve_export E ctx j res exp).
Proof.
  unfold Solve_export.
  destruct (Exporter exp) as [x|]; [|apply emits_ret].
  destruct (exportSource res) as [inp|err]; [|apply emits_ret].
  apply emits_bind.
  - apply emits_inVertexContext; [by intros [] | ].
    intros c l. unfold exportClosure.
    repeat first [ apply emits_Export; reflexivity | emits_step ].
  - repeat emits_step.
Qed.

Lemma emits_exportFirstKey e exp ctx r :
  emits isPhase (exportFirstKey E e exp ctx r).
Proof.
  unfold exportFirstKey. destruct (CacheKeys r); [apply emits_panic|].
  by apply emits_ExportTo.
Qed.

Lemma emits_cacheExportClosure res e exp ctx captured :
  emits isPhase (cacheExportClosure E res e exp ctx captured).
Proof.
  unfold cacheExportClosure.
  eapply emits_bind_post;
    [ intros s done s'; apply oneOffProgress_closure
    | by apply emits_oneOffProgress; intros []
    | ].
  intros done (pw & st & ->).
  apply emits_bind;
    [ apply emits_eachOf; intros r; apply emits_exportFirstKey | ].
  intros [err|];
    repeat first
      [ apply emits_prepareDone; by intros []
      | apply emits_Finalize; reflexivity
      | emits_step ].
Qed.

Lemma emits_Solve_cacheExport ctx j res exp :
  emits isPhase (Solve_cacheExport E ctx j res exp).
Proof.
  unfold Solve_cacheExport.
  destruct (CacheExporter exp) as [e|]; [|apply emits_ret].
  apply emits_bind; [|repeat emits_step].
  apply emits_inVertexContext; [by intros []|].
  intros c l. apply emits_cacheExportClosure.
Qed.

Lemma emits_Solve_phases ctx j res exp :
  emits isPhase (Solve_phases E ctx j res exp).
Proof.
  unfold Solve_phases. apply emits_bind.
  - apply (emits_weaken isContentExport); [by intros []|].
    apply emits_Solve_export.
  - intros [resp|err]; [|apply emits_ret].
    apply emits_bind; [apply emits_Solve_cacheExport|].
    repeat emits_step.
Qed.

End Phases.

(** ** The shape of a call of [Solve] *)

Section SolveShape.

Variable E : Env.

Lemma eachOf_release l s :
  eachOf (fun ref => run go (TaskRelease ref context_TODO); ret None) l s
  = (Ret None, addEvents s (map release l)).
Proof.
  revert s. induction l as [|r l IH]; intros s; simpl.
  - unfold ret, addEvents. rewrite app_nil_r. by destruct s.
  - unfold bind at 1. simpl. rewrite IH. unfold addEvents. simpl.
    by rewrite <- app_assoc.
Qed.

Lemma releaseRefs_run res s :
  releaseRefs res s = (Ret tt, addEvents s (map release (refsOf res))).
Proof.
  unfold releaseRefs, EachRef, bind. by rewrite eachOf_release.
Qed.

(** A call whose job is refused *)
Lemma Solve_conflict ctx id req exp s j :
  jobs s !! id = Some j ->
  Solve E ctx id req exp s = (Ret (None, Some (ErrJobConflict id)), s).
Proof. intros Hj. unfold Solve, bind, NewJob. by rewrite Hj. Qed.

(** A call whose solve step fails *)
Lemma Solve_bridge_error ctx id req exp s err :
  jobs s !! id = None ->
  bridge_Solve E (trace s ++ [EvNewJob id]) (jobOf ctx id) ctx req = inr err ->
  Solve E ctx id req exp s
  = (Ret (None, Some err), returned (solved s ctx id req) id []).
Proof.
  intros Hj Hb. unfold Solve, bind, NewJob, defer. rewrite Hj. simpl.
  unfold jobOf in Hb. rewrite Hb. simpl.
  unfold returned, solved. simpl. rewrite insert_insert_eq.
  by rewrite <- !app_assoc.
Qed.

(** A call whose solve step succeeds: the phases run, then the
    deferred calls *)
Lemma Solve_bridge_ok ctx id req exp s res :
  jobs s !! id = None ->
  bridge_Solve E (trace s ++ [EvNewJob id]) (jobOf ctx id) ctx req = inl res ->
  Solve E ctx id req exp s
  = ((Solve_phases E ctx (jobOf ctx id) res exp (solved s ctx id req)).1,
     returned (Solve_phases E ctx (jobOf ctx id) res exp (solved s ctx id req)).2
              id (refsOf res)).
Proof.
  intros Hj Hb. unfold Solve, bind, NewJob, defer. rewrite Hj. simpl.
  unfold jobOf in *. rewrite Hb. simpl.
  rewrite insert_insert_eq, <- !app_assoc. simpl.
  fold (jobOf ctx id).
  change {| trace := trace s ++ [EvNewJob id; EvBridgeSolve id ctx req];
            jobs := <[id := jobOf ctx id]> (jobs s);
            nows := nows s; ids := ids s; pws := pws s |}
    with (solved s ctx id req).
  destruct (Solve_phases E ctx (jobOf ctx id) res exp (solved s ctx id req))
    as [r s1].
  rewrite releaseRefs_run. simpl. unfold returned. simpl.
  by rewrite <- !app_assoc.
Qed.

End SolveShape.

(** ** The deferred calls of [Solve] *)

Section TraceFacts.

Lemma goTasks_app l1 l2 : goTasks (l1 ++ l2) = goTasks l1 ++ goTasks l2.
Proof. apply omap_app. Qed.

Lemma goTasks_phase l : forallb isPhase l = true -> goTasks l = [].
Proof.
  induction l as [|e l IH]; [done|]. simpl.
  intros [He Hl]%andb_prop. unfold goTasks in *. simpl.
  destruct e; try discriminate He; by apply IH.
Qed.

Lemma goTasks_release l :
  goTasks (map release l) = map (fun r => TaskRelease r context_TODO) l.
Proof.
  induction l as [|r l IH]; [done|].
  change (goTasks (map release (r :: l)))
    with (TaskRelease r context_TODO :: goTasks (map release l)).
  by rewrite IH.
Qed.

Lemma no_discard_phase l :
  forallb isPhase l = true -> forallb (fun e => negb (isDiscard e)) l = true.
Proof.
  rewrite !forallb_forall. intros H e He. specialize (H e He). by destruct e.
Qed.

Lemma no_discard_release l :
  forallb (fun e => negb (isDiscard e)) (map release l) = true.
Proof. by induction l. Qed.

Lemma no_vertex_release l : filter (fun e => isVertexWrite e = true) (map release l) = [].
Proof. by induction l. Qed.

End TraceFacts.

(** C1: when the solve step of a call of Solve returns a Result, the
    call adds to the trace the events of its phases, then one goroutine
    [ref.Release(context.TODO())] for every reference of the Result (the
    primary one first, then the named ones), then the discard of the
    job, however the call ends: with a response, with the error of a
    failed export, or with a panic.  The goroutines that the call starts
    are those releases and no others, each started and never waited
    for. *)
Theorem Solve_releases_every_ref (E : Env) ctx id req exp s res :
  jobs s !! id = None ->
  bridge_Solve E (trace s ++ [EvNewJob id]) (jobOf ctx id) ctx req = inl res ->
  exists mid,
    trace (Solve E ctx id req exp s).2
    = trace s ++ [EvNewJob id; EvBridgeSolve id ctx req] ++ mid
              ++ map release (refsOf res) ++ [EvDiscard id]
    /\ forallb isPhase mid = true
    /\ goTasks (drop (length (trace s)) (trace (Solve E ctx id req exp s).2))
       = map (fun r => TaskRelease r context_TODO) (refsOf res).
Proof.
  intros Hj Hb. rewrite (Solve_bridge_ok E _ _ _ _ _ _ Hj Hb). simpl.
  destruct (emits_Solve_phases E ctx (jobOf ctx id) res exp (solved s ctx id req))
    as (mid & Ht & Hp & _).
  exists mid. rewrite Ht. simpl. rewrite <- !app_assoc. simpl.
  split_and!; [done | done |].
  rewrite drop_app_length. simpl.
  rewrite !goTasks_app, (goTasks_phase _ Hp), goTasks_release. simpl.
  by rewrite app_nil_r.
Qed.

(** C7: when the job of a call of Solve is made, the call discards it
    exactly once, as its last event, and the job is no longer in the
    engine's table when the call has ended, however it ends.  When the
    solve step returns an error, the call returns that error at once:
    nothing happens between the solve step and the discard. *)
Theorem Solve_discards_job (E : Env) ctx id req exp s :
  jobs s !! id = None ->
  (exists mid,
      trace (Solve E ctx id req exp s).2
      = trace s ++ EvNewJob id :: mid ++ [EvDiscard id]
      /\ forallb (fun e => negb (isDiscard e)) mid = true
      /\ jobs (Solve E ctx id req exp s).2 !! id = None)
  /\ forall err,
      bridge_Solve E (trace s ++ [EvNewJob id]) (jobOf ctx id) ctx req = inr err ->
      Solve E ctx id req exp s
      = (Ret (None, Some err),
         {| trace := trace s ++ [EvNewJob id; EvBridgeSolve id ctx req;
                                 EvDiscard id];
            jobs := jobs s; nows := nows s; ids := ids s; pws := pws s |}).
Proof.
  intros Hj. split.
  - destruct (bridge_Solve E (trace s ++ [EvNewJob id]) (jobOf ctx id) ctx req)
      as [res|err] eqn:Hb.
    + rewrite (Solve_bridge_ok E _ _ _ _ _ _ Hj Hb). simpl.
      destruct (emits_Solve_phases E ctx (jobOf ctx id) res exp
                                   (solved s ctx id req))
        as (mid & Ht & Hp & Hjobs).
      exists (EvBridgeSolve id ctx req :: mid ++ map release (refsOf res)).
      rewrite Ht, Hjobs. simpl. rewrite <- !app_assoc. simpl.
      split_and!; [done | | apply lookup_delete_eq].
      rewrite forallb_app, (no_discard_phase _ Hp). apply no_discard_release.
    + rewrite (Solve_bridge_error E _ _ _ _ _ _ Hj Hb). simpl.
      exists [EvBridgeSolve id ctx req]. rewrite <- !app_assoc. simpl.
      split_and!; [done | done | apply lookup_delete_eq].
  - intros err Hb. rewrite (Solve_bridge_error E _ _ _ _ _ _ Hj Hb).
    unfold returned, solved. simpl. rewrite <- !app_assoc. simpl.
    rewrite delete_insert_eq, delete_id; done.
Qed.

(** C6: a call of Solve with neither a content exporter nor a cache
    exporter, whose solve step returns a Result, returns a response
    whose map is the nil map, of length 0, and no error; the call
    writes nothing to the progress sink, so no vertex of an export
    phase: its events are the making of the job, the solve step, the
    releases and the discard. *)
Theorem Solve_without_exporters (E : Env) ctx id req exp s res :
  jobs s !! id = None ->
  bridge_Solve E (trace s ++ [EvNewJob id]) (jobOf ctx id) ctx req = inl res ->
  Exporter exp = None ->
  CacheExporter exp = None ->
  exists resp new,
    (Solve E ctx id req exp s).1 = Ret (Some resp, None)
    /\ client.ExporterResponse resp = None
    /\ maplen (client.ExporterResponse resp) = 0
    /\ trace (Solve E ctx id req exp s).2 = trace s ++ new
    /\ new = [EvNewJob id; EvBridgeSolve id ctx req]
               ++ map release (refsOf res) ++ [EvDiscard id]
    /\ filter (fun e => isVertexWrite e = true) new = []
    /\ forallb (fun e => negb (isProgress e)) new = true.
Proof.
  intros Hj Hb Hx Hc. rewrite (Solve_bridge_ok E _ _ _ _ _ _ Hj Hb).
  unfold Solve_phases, Solve_export, Solve_cacheExport, bind.
  rewrite Hx, Hc. simpl.
  exists {| client.ExporterResponse := None |}. eexists.
  split_and!; [done | done | done | by rewrite <- !app_assoc | done | | ].
  - change (filter (fun e => isVertexWrite e = true)
                   (map release (refsOf res) ++ [EvDiscard id]) = []).
    by rewrite filter_app, no_vertex_release.
  - simpl. rewrite forallb_app, andb_true_r. by induction (refsOf res).
Qed.

(** ** A phase run as a vertex *)

Section Vertex.

Variable E : Env.

Lemma inVertexContext_run {L} ctx name
      (f : Context -> L -> M (option error * L)) captured s :
  inVertexContext E ctx name f captured s
  = match f (childContext E ctx s) captured (startedState E ctx name s) with
    | (Ret (err, captured'), s2) =>
        (Ret (err, captured'), completedState E ctx name s s2 err)
    | (Panic msg, s2) =>
        (Panic msg, addEvents s2 [EvClose (vertexWriter E ctx s (pws s))])
    end.
Proof.
  unfold inVertexContext, bind, defer. simpl.
  rewrite !app_nil_r, <- !app_assoc. simpl.
  match goal with |- context [f ?c captured ?st] =>
    change (f c captured st)
      with (f (childContext E ctx s) captured (startedState E ctx name s))
  end.
  destruct (f (childContext E ctx s) captured (startedState E ctx name s))
    as [[[err c']|msg] s2]; simpl; [|done].
  unfold completedState, completedVertex, vertexWriter, childContext. simpl.
  rewrite <- !app_assoc. simpl. by destruct err.
Qed.

End Vertex.

(** C4: [inVertexContext] draws the next identifier of the generator
    and makes the vertex identity of it; it writes the vertex with its
    start time, not cached and not completed; it runs the phase function
    in the child context, which carries the identity as metadata; when
    the phase function has returned, with an error or without, it
    writes the vertex again, completed, not cached, with the message of
    the phase function's error if there is one, closes its writers and
    returns what the phase function returned. *)
Theorem inVertexContext_events (E : Env) {L} ctx name
        (f : Context -> L -> M (option error * L)) captured s
        err captured' s2 :
  let dg := digest_FromBytes E (identity_NewID E (ids s)) in
  let child := {| ctx_session := ctx_session ctx; ctx_job := ctx_job ctx;
                  ctx_meta := ctx_meta ctx ++ [("vertex", dg)] |} in
  let pw n := {| progress.pw_id := n; progress.pw_meta := ctx_meta child |} in
  let started := {| client.Digest := dg; client.Name := name;
                    client.Started := Some (time_Now E (nows s));
                    client.Completed := None;
                    client.Cached := false;
                    client.Error := "" |} in
  let s1 := {| trace := trace s ++ [EvWrite (pw (S (pws s))) dg (VVertex started);
                                    EvClose (pw (S (pws s)))];
               jobs := jobs s;
               nows := S (nows s); ids := S (ids s); pws := S (S (pws s)) |} in
  f child captured s1 = (Ret (err, captured'), s2) ->
  let completed := {| client.Digest := dg; client.Name := name;
                      client.Started := Some (time_Now E (nows s));
                      client.Completed := Some (time_Now E (nows s2));
                      client.Cached := false;
                      client.Error := match err with
                                      | Some e => Error e
                                      | None => ""
                                      end |} in
  inVertexContext E ctx name f captured s
  = (Ret (err, captured'),
     {| trace := trace s2 ++ [EvWrite (pw (pws s2)) dg (VVertex completed);
                              EvClose (pw (pws s2));
                              EvClose (pw (pws s))];
        jobs := jobs s2;
        nows := S (nows s2); ids := ids s2; pws := S (pws s2) |}).
Proof.
  intros dg child pw started s1 Hf completed.
  rewrite inVertexContext_run.
  change (startedState E ctx name s) with s1.
  change (childContext E ctx s) with child.
  by rewrite Hf.
Qed.

Lemma inVertexContext_events_witness :
  failingPhase (childContext envOk ctx0 state0) 0
               (startedState envOk ctx0 "image" state0)
  = (Ret (Some (ErrOther "boom"), 1), startedState envOk ctx0 "image" state0)
  /\ inVertexContext envOk ctx0 "image" failingPhase 0 state0
     = (Ret (Some (ErrOther "boom"), 1),
        let pw n := {| progress.pw_id := n;
                       progress.pw_meta := [("vertex", "sha256:a")] |} in
        {| trace :=
             [EvWrite (pw 1) "sha256:a"
                      (VVertex {| client.Digest := "sha256:a";
                                  client.Name := "image";
                                  client.Started := Some 100;
                                  client.Completed := None;
                                  client.Cached := false;
                                  client.Error := "" |});
              EvClose (pw 1);
              EvWrite (pw 2) "sha256:a"
                      (VVertex {| client.Digest := "sha256:a";
                                  client.Name := "image";
                                  client.Started := Some 100;
                                  client.Completed := Some 101;
                                  client.Cached := false;
                                  client.Error := "boom" |});
              EvClose (pw 2);
              EvClose (pw 0)];
           jobs := ∅; nows := 2; ids := 1; pws := 3 |}).
Proof.
  refine (conj eq_refl _).
  exact (inVertexContext_events
           envOk ctx0 "image" failingPhase 0 state0
           (Some (ErrOther "boom")) 1
           (startedState envOk ctx0 "image" state0)
           eq_refl).
Defined.

(** ** The export source *)

Section ExportSource.

Lemma mapassign_fresh {V} (m : list (string * V)) k v :
  k ∉ m.*1 -> mapassign m k v = m ++ [(k, v)].
Proof.
  induction m as [|[k' v'] m IH]; simpl; [done|].
  rewrite not_elem_of_cons. intros [Hne Hm].
  destruct (decide (k' = k)) as [->|_]; [done|]. by rewrite IH.
Qed.

Lemma maplookup_elem_of {V} (m : list (string * V)) k v :
  NoDup m.*1 -> (k, v) ∈ m -> maplookup m k = Some v.
Proof.
  induction m as [|[k' v'] m IH]; simpl.
  - intros _ H. by apply elem_of_nil in H.
  - rewrite NoDup_cons, elem_of_cons. intros [Hk' Hnd] [Heq|Hin].
    + inversion Heq; subst. by rewrite decide_True.
    + destruct (decide (k' = k)) as [->|_]; [|by apply IH].
      exfalso. apply Hk'. apply list_elem_of_fmap. by exists (k, v).
Qed.

Lemma rangeRefs_err l m err :
  rangeRefs l m = inr err ->
  exists r ty, r ∈ omap snd l /\ Sys r = OtherSys ty
               /\ err = ErrInvalidReference ty.
Proof.
  revert m. induction l as [|[k [r|]] l IH]; intros m; simpl.
  - discriminate.
  - unfold asWorkerRef. destruct (Sys r) as [w|ty] eqn:Hsys.
    + intros (r' & ty & Hin & H)%IH. exists r', ty. split; [|done].
      by apply elem_of_cons; right.
    + intros [= <-]. exists r, ty. split; [|done]. by apply elem_of_cons; left.
  - apply IH.
Qed.

Lemma rangeRefs_invalid l m r ty :
  r ∈ omap snd l -> Sys r = OtherSys ty -> exists err, rangeRefs l m = inr err.
Proof.
  revert m. induction l as [|[k [r'|]] l IH]; intros m; simpl.
  - intros H. by apply elem_of_nil in H.
  - unfold asWorkerRef. intros Hin Hsys.
    destruct (Sys r') as [w|ty'] eqn:Hsys'; [|eauto].
    apply elem_of_cons in Hin as [->|Hin]; [congruence|]. by apply IH.
  - apply IH.
Qed.

Lemma rangeRefs_ok l m :
  NoDup (m.*1 ++ l.*1) ->
  Forall (fun r => is_Some (immOf r)) (omap snd l) ->
  rangeRefs l m = inl (m ++ map sourceEntry l).
Proof.
  revert m. induction l as [|[k [r|]] l IH]; intros m; simpl.
  - intros _ _. by rewrite app_nil_r.
  - intros Hnd [[w Hw] Hall]%Forall_cons.
    unfold asWorkerRef. unfold immOf in Hw.
    destruct (Sys r) as [w'|] eqn:Hsys; [|discriminate].
    rewrite mapassign_fresh.
    + rewrite IH; [| |done].
      * rewrite <- app_assoc. simpl. unfold sourceEntry at 2. simpl.
        unfold immOf. by rewrite Hsys.
      * rewrite fmap_app. simpl. by rewrite <- app_assoc.
    + apply NoDup_app in Hnd as (_ & Hdisj & _).
      intros Hin. apply (Hdisj _ Hin). by apply elem_of_cons; left.
  - intros Hnd Hall.
    rewrite mapassign_fresh.
    + rewrite IH; [| |done].
      * by rewrite <- app_assoc.
      * rewrite fmap_app. simpl. by rewrite <- app_assoc.
    + apply NoDup_app in Hnd as (_ & Hdisj & _).
      intros Hin. apply (Hdisj _ Hin). by apply elem_of_cons; left.
Qed.

Lemma exportSource_err res err :
  exportSource res = inr err ->
  exists r ty, r ∈ refsOf res /\ Sys r = OtherSys ty
               /\ err = ErrInvalidReference ty.
Proof.
  unfold exportSource, refsOf.
  destruct (Ref res) as [r|]; simpl.
  - unfold asWorkerRef. destruct (Sys r) as [w|ty] eqn:Hsys.
    + destruct (Refs res) as [l|]; [|discriminate].
      destruct (rangeRefs l []) as [m|e] eqn:Hr; [discriminate|].
      intros [= <-]. apply rangeRefs_err in Hr as (r' & ty & Hin & H).
      exists r', ty. split; [|done]. by apply elem_of_cons; right.
    + intros [= <-]. exists r, ty. split; [|done]. by apply elem_of_cons; left.
  - destruct (Refs res) as [l|]; [|discriminate].
    destruct (rangeRefs l []) as [m|e] eqn:Hr; [discriminate|].
    intros [= <-]. by apply rangeRefs_err in Hr.
Qed.

Lemma exportSource_invalid res r ty :
  r ∈ refsOf res -> Sys r = OtherSys ty -> exists err, exportSource res = inr err.
Proof.
  unfold exportSource, refsOf.
  destruct (Ref res) as [r0|]; simpl.
  - unfold asWorkerRef. intros Hin Hsys.
    destruct (Sys r0) as [w|ty0] eqn:Hsys0; [|eauto].
    apply elem_of_cons in Hin as [->|Hin]; [congruence|].
    destruct (Refs res) as [l|]; [|by apply elem_of_nil in Hin].
    destruct (rangeRefs_invalid l [] r ty Hin Hsys) as [err ->]. eauto.
  - intros Hin Hsys.
    destruct (Refs res) as [l|]; [|by apply elem_of_nil in Hin].
    destruct (rangeRefs_invalid l [] r ty Hin Hsys) as [err ->]. eauto.
Qed.

Lemma exportSource_ok res :
  (forall l, Refs res = Some l -> NoDup l.*1) ->
  Forall (fun r => is_Some (immOf r)) (refsOf res) ->
  exportSource res
  = inl {| src_Metadata := Metadata res;
           src_Ref := Ref res ≫= immOf;
           src_Refs := map sourceEntry <$> Refs res |}.
Proof.
  unfold exportSource, refsOf. intros Hnd Hall.
  apply Forall_app in Hall as [Hp Hn].
  assert (Hprim :
            match Ref res with
            | Some r => match asWorkerRef r with
                        | inl w => inl (Some w)
                        | inr e => inr e
                        end
            | None => inl None
            end = (inl (Ref res ≫= immOf) : option ImmutableRef + error)).
  { destruct (Ref res) as [r|]; [|done]. simpl.
    apply Forall_cons in Hp as [[w Hw] _]. unfold asWorkerRef.
    unfold immOf in *. by destruct (Sys r). }
  rewrite Hprim. destruct (Refs res) as [l|]; [|done]. simpl.
  by rewrite rangeRefs_ok; [| apply Hnd | ].
Qed.

End ExportSource.

Section ContentExport.

Variable E : Env.

(** The content export stops at a reference of another type. *)
Lemma Solve_phases_invalid ctx j res exp x err s :
  Exporter exp = Some x ->
  exportSource res = inr err ->
  Solve_phases E ctx j res exp s = (Ret (None, Some err), s).
Proof.
  intros Hx Hsrc. unfold Solve_phases, Solve_export, bind.
  by rewrite Hx, Hsrc.
Qed.

(** The content export, once the export source is made *)
Lemma Solve_export_run ctx j res exp x inp s :
  Exporter exp = Some x ->
  exportSource res = inl inp ->
  Solve_export E ctx j res exp s
  = let c := childContext E (Job_Context j ctx) s in
    let s1 := startedState E (Job_Context j ctx) (Name x) s in
    let a := exporter_Export E (trace s1) x c inp in
    (Ret (match a.2 with Some e => inr e | None => inl a.1 end),
     completedState E (Job_Context j ctx) (Name x) s
                    (addEvents s1 [EvExport x c inp]) a.2).
Proof.
  intros Hx Hsrc. unfold Solve_export. rewrite Hx, Hsrc.
  unfold bind at 1. rewrite inVertexContext_run.
  unfold exportClosure, Export, bind, ask, emit, ret. simpl.
  destruct (exporter_Export E _ x _ inp) as [resp [e|]]; simpl; done.
Qed.

Lemma Solve_export_calls ctx j res exp x inp s :
  Exporter exp = Some x ->
  exportSource res = inl inp ->
  exists c, EvExport x c inp ∈ trace (Solve_phases E ctx j res exp s).2.
Proof.
  intros Hx Hsrc. exists (childContext E (Job_Context j ctx) s).
  unfold Solve_phases, bind at 1.
  rewrite (Solve_export_run _ _ _ _ _ _ _ Hx Hsrc). simpl.
  match goal with |- context [completedState ?a ?b ?c ?d ?e ?f] =>
    assert (Hin : EvExport x (childContext E (Job_Context j ctx) s) inp
                    ∈ trace (completedState a b c d e f))
      by (simpl; rewrite !elem_of_app, !elem_of_cons; tauto);
    generalize dependent (completedState a b c d e f)
  end.
  intros s2 Hin.
  destruct (exporter_Export E _ x _ inp).2 as [e|]; [done|].
  unfold bind.
  destruct (emits_Solve_cacheExport E ctx j res exp s2) as (evs & Ht & _).
  destruct (Solve_cacheExport E ctx j res exp s2) as [[[e|]|msg] s3];
    simpl in *; rewrite Ht, elem_of_app; by left.
Qed.

End ContentExport.

(** C5: a call of Solve with a content exporter, whose Result holds a
    reference (the primary one or a named one that is not nil) that is
    not a reference of the worker backend, returns no response and the
    error "invalid reference" of such a reference; its events are the
    making of the job, the solve step, the releases and the discard:
    nothing is written to the progress sink and no exporter is
    called. *)
Theorem Solve_invalid_reference (E : Env) ctx id req exp s res x r ty :
  jobs s !! id = None ->
  bridge_Solve E (trace s ++ [EvNewJob id]) (jobOf ctx id) ctx req = inl res ->
  Exporter exp = Some x ->
  r ∈ refsOf res ->
  Sys r = OtherSys ty ->
  exists r' ty',
    r' ∈ refsOf res /\ Sys r' = OtherSys ty'
    /\ Solve E ctx id req exp s
       = (Ret (None, Some (ErrInvalidReference ty')),
          {| trace := trace s ++ [EvNewJob id; EvBridgeSolve id ctx req]
                              ++ map release (refsOf res) ++ [EvDiscard id];
             jobs := jobs s; nows := nows s; ids := ids s; pws := pws s |})
    /\ Error (ErrInvalidReference ty') = "invalid reference: " +:+ ty'.
Proof.
  intros Hj Hb Hx Hin Hsys.
  destruct (exportSource_invalid res r ty Hin Hsys) as [err Hsrc].
  destruct (exportSource_err res err Hsrc) as (r' & ty' & Hin' & Hsys' & ->).
  exists r', ty'. split_and!; [done | done | | done].
  rewrite (Solve_bridge_ok E _ _ _ _ _ _ Hj Hb).
  rewrite (Solve_phases_invalid E _ _ _ _ _ _ _ Hx Hsrc). simpl.
  unfold returned, solved. simpl.
  rewrite delete_insert_eq, delete_id, <- !app_assoc; done.
Qed.

(** C9: with a content exporter, a nil entry of the Result's named
    references is no cause of failure.  An error of the making of the
    export source is the error of a reference that is not nil and not of
    the worker backend; when every reference that is not nil is of the
    worker backend, the export source is made, its named map has the nil
    entry under every name that had one and the worker's reference under
    every other name, and that source is what the exporter receives. *)
Theorem Solve_passes_nil_refs (E : Env) ctx id req exp s res x l :
  jobs s !! id = None ->
  bridge_Solve E (trace s ++ [EvNewJob id]) (jobOf ctx id) ctx req = inl res ->
  Exporter exp = Some x ->
  Refs res = Some l ->
  NoDup l.*1 ->
  (forall err,
      exportSource res = inr err ->
      exists r ty, r ∈ refsOf res /\ Sys r = OtherSys ty
                   /\ err = ErrInvalidReference ty)
  /\ (Forall (fun r => is_Some (immOf r)) (refsOf res) ->
      exists inp m c,
        exportSource res = inl inp
        /\ src_Refs inp = Some m
        /\ (forall k, (k, None) ∈ l -> maplookup m k = Some None)
        /\ (forall k r, (k, Some r) ∈ l -> maplookup m k = Some (immOf r))
        /\ EvExport x c inp ∈ trace (Solve E ctx id req exp s).2).
Proof.
  intros Hj Hb Hx Hl Hnd. split; [apply exportSource_err|].
  intros Hall.
  assert (Hsrc := exportSource_ok res).
  rewrite Hl in Hsrc. simpl in Hsrc.
  specialize (Hsrc ltac:(by intros ? [= <-]) Hall).
  destruct (Solve_export_calls E ctx (jobOf ctx id) res exp x _
                               (solved s ctx id req) Hx Hsrc) as [c Hc].
  eexists _, _, c. split_and!; [done | done | | | ].
  - intros k Hk. apply (maplookup_elem_of _ k None).
    + by rewrite <- list_fmap_compose.
    + change (k, None) with (sourceEntry (k, None)). by apply list_elem_of_fmap_2.
  - intros k r Hk. apply (maplookup_elem_of _ k (immOf r)).
    + by rewrite <- list_fmap_compose.
    + change (k, immOf r) with (sourceEntry (k, Some r)).
      by apply list_elem_of_fmap_2.
  - rewrite (Solve_bridge_ok E _ _ _ _ _ _ Hj Hb). simpl.
    rewrite elem_of_app. by left.
Qed.

(** ** The cache export *)

Section CacheExport.

Variable E : Env.

Lemma addEvents_nil s : addEvents s [] = s.
Proof. unfold addEvents. rewrite app_nil_r. by destruct s. Qed.

Lemma addEvents_app s l1 l2 :
  addEvents (addEvents s l1) l2 = addEvents s (l1 ++ l2).
Proof. unfold addEvents. simpl. by rewrite app_assoc. Qed.

Lemma exportToCalls_app l1 l2 :
  exportToCalls (l1 ++ l2) = exportToCalls l1 ++ exportToCalls l2.
Proof. apply omap_app. Qed.

Lemma exportToCalls_content l :
  forallb isContentExport l = true -> exportToCalls l = [].
Proof.
  induction l as [|ev l IH]; [done|]. simpl.
  intros [He Hl]%andb_prop. unfold exportToCalls in *. simpl.
  destruct ev; try discriminate He; by apply IH.
Qed.

Lemma exportToCalls_events ctx e opt l :
  exportToCalls (exportToEvents ctx e opt l) = firstKeyCalls e opt l.
Proof.
  induction l as [|r l IH]; [done|].
  unfold exportToCalls, exportToEvents, firstKeyCalls in *. cbn.
  destruct (head (CacheKeys r)); cbn; by rewrite IH.
Qed.


Lemma eachOf_no_key e exp ctx r l s :
  CacheKeys r = [] ->
  eachOf (exportFirstKey E e exp ctx) (r :: l) s
  = (Panic "runtime error: index out of range", s).
Proof.
  intros Hkeys. simpl. unfold bind, exportFirstKey. by rewrite Hkeys.
Qed.

Lemma eachOf_first_key e exp ctx r l s k ks :
  CacheKeys r = k :: ks ->
  eachOf (exportFirstKey E e exp ctx) (r :: l) s
  = match key_ExportTo E (trace s) k ctx e (exportOpt exp) with
    | Some err =>
        (Ret (Some err), addEvents s [EvExportTo k ctx e (exportOpt exp)])
    | None =>
        eachOf (exportFirstKey E e exp ctx) l
               (addEvents s [EvExportTo k ctx e (exportOpt exp)])
    end.
Proof.
  intros Hkeys. simpl. unfold bind, exportFirstKey. rewrite Hkeys.
  unfold ExportTo, bind, ask, emit, ret. simpl. fold (exportOpt exp).
  by destruct (key_ExportTo E (trace s) k ctx e (exportOpt exp)).
Qed.

(** The loop of the cache export over a list of references: it
    handles the first [n] of them, one [ExportTo] call each, and ends
    after all of them, at the first call that fails, or at the first
    reference without a cache key, with a panic. *)
Lemma eachOf_exportFirstKey e exp ctx l s :
  exists n,
    n <= length l
    /\ (eachOf (exportFirstKey E e exp ctx) l s).2
       = addEvents s (exportToEvents ctx e (exportOpt exp) (take n l))
    /\ Forall (fun r => CacheKeys r <> []) (take n l)
    /\ match (eachOf (exportFirstKey E e exp ctx) l s).1 with
       | Ret None => n = length l
       | Ret (Some err) =>
           exists i r k tr,
             n = S i /\ l !! i = Some r /\ head (CacheKeys r) = Some k
             /\ key_ExportTo E tr k ctx e (exportOpt exp) = Some err
       | Panic msg =>
           msg = "runtime error: index out of range"
           /\ exists r, l !! n = Some r /\ CacheKeys r = []
       end.
Proof.
  revert s. induction l as [|r l IH]; intros s.
  - exists 0. simpl. by rewrite addEvents_nil.
  - destruct (CacheKeys r) as [|k ks] eqn:Hkeys.
    { rewrite (eachOf_no_key _ _ _ _ _ _ Hkeys).
      exists 0. simpl. rewrite addEvents_nil.
      refine (conj _ (conj _ (conj _ _))); [lia | done | done | eauto]. }
    rewrite (eachOf_first_key _ _ _ _ _ _ _ _ Hkeys).
    destruct (key_ExportTo E (trace s) k ctx e (exportOpt exp))
      as [err|] eqn:Hans.
    { exists 1. cbn. rewrite take_0. unfold exportToEvents. cbn.
      rewrite Hkeys. cbn.
      refine (conj _ (conj _ (conj _ _))); [lia | done | | ].
      - apply Forall_cons. split; [by rewrite Hkeys | done].
      - exists 0, r, k, (trace s). by rewrite Hkeys. }
    destruct (IH (addEvents s [EvExportTo k ctx e (exportOpt exp)]))
      as (n & Hn & Hst & Hne & Hout).
    exists (S n). rewrite Hst, addEvents_app.
    refine (conj _ (conj _ (conj _ _))); [simpl; lia | | | ].
    + unfold exportToEvents. cbn. by rewrite Hkeys.
    + cbn. apply Forall_cons. split; [by rewrite Hkeys | done].
    + destruct (eachOf (exportFirstKey E e exp ctx) l
                       (addEvents s [EvExportTo k ctx e (exportOpt exp)])).1
        as [[err|]|msg].
      * destruct Hout as (i & r' & k' & tr & -> & Hl & Hk & Ha).
        by exists (S i), r', k', tr.
      * simpl. by rewrite Hout.
      * done.
Qed.

Lemma cacheExportClosure_run res e exp ctx u s :
  cacheExportClosure E res e exp ctx u s
  = match eachOf (exportFirstKey E e exp ctx) (refsOf res)
                 (markerStarted E ctx s) with
    | (Ret (Some err), s2) => (Ret (Some err, u), markerDone E ctx s s2)
    | (Ret None, s2) =>
        (Ret (cache_Finalize E (trace (markerDone E ctx s s2)) e ctx, u),
         addEvents (markerDone E ctx s s2) [EvFinalize e ctx])
    | (Panic msg, s2) => (Panic msg, s2)
    end.
Proof.
  unfold cacheExportClosure, EachRef, bind. simpl. rewrite app_nil_r.
  change {| trace := trace s ++ [EvWrite _ _ _]; jobs := jobs s;
            nows := S (nows s); ids := ids s; pws := S (pws s) |}
    with (markerStarted E ctx s).
  destruct (eachOf (exportFirstKey E e exp ctx) (refsOf res)
                   (markerStarted E ctx s)) as [[[err|]|msg] s2];
    simpl; unfold markerDone, addEvents; simpl;
    by rewrite <- ?app_assoc.
Qed.

Lemma Solve_cacheExport_run ctx j res exp e s :
  CacheExporter exp = Some e ->
  Solve_cacheExport E ctx j res exp s
  = match cacheExportClosure E res e exp
            (childContext E (Job_Context j ctx) s) tt
            (startedState E (Job_Context j ctx) "exporting cache" s) with
    | (Ret (err, _), s2) =>
        (Ret err,
         completedState E (Job_Context j ctx) "exporting cache" s s2 err)
    | (Panic msg, s2) =>
        (Panic msg,
         addEvents s2 [EvClose (vertexWriter E (Job_Context j ctx) s (pws s))])
    end.
Proof.
  intros He. unfold Solve_cacheExport. rewrite He. unfold bind.
  rewrite inVertexContext_run.
  by destruct (cacheExportClosure E res e exp _ tt _) as [[[err []]|msg] s2].
Qed.

End CacheExport.

Section CacheExportPhase.

Variable E : Env.

Lemma Solve_cacheExport_spec ctx j res exp e s :
  CacheExporter exp = Some e ->
  exists n new,
    n <= length (refsOf res)
    /\ trace (Solve_cacheExport E ctx j res exp s).2 = trace s ++ new
    /\ exportToCalls new
       = firstKeyCalls e (exportOpt exp) (take n (refsOf res))
    /\ Forall (fun r => CacheKeys r <> []) (take n (refsOf res))
    /\ match (Solve_cacheExport E ctx j res exp s).1 with
       | Ret None => n = length (refsOf res)
       | Ret (Some err) => cacheExportFailed E e exp (refsOf res) n err
       | Panic msg =>
           msg = "runtime error: index out of range"
           /\ exists r, refsOf res !! n = Some r /\ CacheKeys r = []
       end.
Proof.
  intros He. rewrite (Solve_cacheExport_run E _ _ _ _ _ _ He).
  rewrite cacheExportClosure_run.
  set (c := childContext E (Job_Context j ctx) s).
  set (s1 := startedState E (Job_Context j ctx) "exporting cache" s).
  destruct (eachOf_exportFirstKey E e exp c (refsOf res)
                                  (markerStarted E c s1))
    as (n & Hn & Hst & Hne & Hout).
  exists n.
  destruct (eachOf (exportFirstKey E e exp c) (refsOf res)
                   (markerStarted E c s1)) as [[[err|]|msg] s2];
    simpl in Hst, Hout; subst s2; eexists;
    (refine (conj Hn (conj _ (conj _ (conj Hne _))));
     [ simpl; rewrite <- !app_assoc; reflexivity
     | rewrite !exportToCalls_app, exportToCalls_events;
       cbn; by rewrite ?app_nil_r
     | ]).
  - destruct Hout as (i & r & k & tr & Hi & Hl & Hk & Ha).
    right. by exists i, r, k, tr, c.
  - destruct (cache_Finalize E _ e c); [by left | done].
  - done.
Qed.

Lemma Solve_export_returns ctx j res exp s :
  exists v, (Solve_export E ctx j res exp s).1 = Ret v.
Proof.
  destruct (Exporter exp) as [x|] eqn:Hx.
  - destruct (exportSource res) as [inp|err] eqn:Hsrc.
    + rewrite (Solve_export_run E _ _ _ _ _ _ _ Hx Hsrc). simpl. eauto.
    + unfold Solve_export. rewrite Hx, Hsrc. simpl. eauto.
  - unfold Solve_export. rewrite Hx. simpl. eauto.
Qed.

(** The content export succeeds when no exporter is set, and when the
    export source is made and the exporter returns no error. *)
Lemma Solve_export_ok ctx j res exp s :
  Exporter exp = None
  \/ ((exists inp, exportSource res = inl inp)
      /\ forall tr x c inp, (exporter_Export E tr x c inp).2 = None) ->
  exists resp, (Solve_export E ctx j res exp s).1 = Ret (inl resp).
Proof.
  intros [Hx|[[inp Hsrc] Hans]].
  - unfold Solve_export. rewrite Hx. simpl. eauto.
  - destruct (Exporter exp) as [x|] eqn:Hx.
    + rewrite (Solve_export_run E _ _ _ _ _ _ _ Hx Hsrc). simpl.
      rewrite Hans. eauto.
    + unfold Solve_export. rewrite Hx. simpl. eauto.
Qed.

(** The two phases of a call with a cache exporter *)
Lemma Solve_phases_cache ctx j res exp e s :
  CacheExporter exp = Some e ->
  exists n new,
    n <= length (refsOf res)
    /\ trace (Solve_phases E ctx j res exp s).2 = trace s ++ new
    /\ exportToCalls new
       = firstKeyCalls e (exportOpt exp) (take n (refsOf res))
    /\ Forall (fun r => CacheKeys r <> []) (take n (refsOf res))
    /\ match (Solve_phases E ctx j res exp s).1 with
       | Ret (_, None) => n = length (refsOf res)
       | Ret (_, Some err) =>
           cacheExportFailed E e exp (refsOf res) n err
           \/ (Solve_export E ctx j res exp s).1 = Ret (inr err)
       | Panic msg =>
           msg = "runtime error: index out of range"
           /\ exists r, refsOf res !! n = Some r /\ CacheKeys r = []
       end.
Proof.
  intros He. unfold Solve_phases, bind.
  destruct (emits_Solve_export E ctx j res exp s) as (evs1 & Ht1 & Hp1 & _).
  destruct (Solve_export_returns ctx j res exp s) as [v Hv].
  destruct (Solve_export E ctx j res exp s) as [o s1].
  simpl in Ht1, Hv. subst o. destruct v as [resp|err].
  - destruct (Solve_cacheExport_spec ctx j res exp e s1 He)
      as (n & new & Hn & Ht & Hc & Hne & Hout).
    exists n, (evs1 ++ new).
    destruct (Solve_cacheExport E ctx j res exp s1) as [[[err|]|msg] s2];
      simpl in *;
      (refine (conj Hn (conj _ (conj _ (conj Hne _))));
       [ by rewrite Ht, Ht1, app_assoc
       | by rewrite exportToCalls_app, (exportToCalls_content _ Hp1)
       | ]); [by left | done | done].
  - exists 0, evs1. simpl. rewrite take_0.
    refine (conj _ (conj Ht1 (conj _ (conj _ _))));
      [lia | by apply exportToCalls_content | done | by right].
Qed.

End CacheExportPhase.

Section CallsFacts.

Lemma exportToCalls_release l : exportToCalls (map release l) = [].
Proof. by induction l. Qed.

End CallsFacts.


(** C10: the callback of the cache export reads the first element of
    the cache keys of a reference without a test.  On a reference with
    no cache key it panics with an index out of range and calls no
    exporter; on a reference with a cache key it calls [ExportTo] on the
    first one and does not panic.  A call of Solve on a Result whose
    references all have a cache key does not panic; a call without
    content exporter whose [ExportTo] calls all succeed panics when a
    reference of the Result has no cache key. *)
Theorem cache_export_first_key_index (E : Env) ctx id req exp s res e :
  jobs s !! id = None ->
  bridge_Solve E (trace s ++ [EvNewJob id]) (jobOf ctx id) ctx req = inl res ->
  CacheExporter exp = Some e ->
  (forall c r s',
      CacheKeys r = [] ->
      exportFirstKey E e exp c r s'
      = (Panic "runtime error: index out of range", s'))
  /\ (forall c r s',
         CacheKeys r <> [] ->
         exists k err,
           head (CacheKeys r) = Some k
           /\ exportFirstKey E e exp c r s'
              = (Ret err,
                 addEvents s' [EvExportTo k c e
                                 {| Convert := workerRefConverter;
                                    Mode := CacheExportMode exp |}]))
  /\ (Forall (fun r => CacheKeys r <> []) (refsOf res) ->
      exists v, (Solve E ctx id req exp s).1 = Ret v)
  /\ (Exporter exp = None ->
      (forall tr k c t o, key_ExportTo E tr k c t o = None) ->
      forall r, r ∈ refsOf res -> CacheKeys r = [] ->
      (Solve E ctx id req exp s).1 = Panic "runtime error: index out of range").
Proof.
  intros Hj Hb He. split_and!.
  - intros c r s' Hkeys. unfold exportFirstKey. by rewrite Hkeys.
  - intros c r s' Hkeys. unfold exportFirstKey.
    destruct (CacheKeys r) as [|k ks]; [done|].
    exists k. eexists. split; [done|].
    unfold ExportTo, bind, ask, emit, ret, addEvents. simpl. reflexivity.
  - intros Hkeys. rewrite (Solve_bridge_ok E _ _ _ _ _ _ Hj Hb). simpl.
    destruct (Solve_phases_cache E ctx (jobOf ctx id) res exp e
                                 (solved s ctx id req) He)
      as (n & new & _ & _ & _ & _ & Hout).
    destruct (Solve_phases E ctx (jobOf ctx id) res exp (solved s ctx id req)).1
      as [v|msg]; [eauto|].
    destruct Hout as (_ & r & Hr & Hnokey). exfalso.
    rewrite Forall_forall in Hkeys.
    apply (Hkeys r); [|done]. by eapply list_elem_of_lookup_2.
  - intros Hx Hans r Hin Hnokey.
    rewrite (Solve_bridge_ok E _ _ _ _ _ _ Hj Hb). simpl.
    destruct (Solve_phases_cache E ctx (jobOf ctx id) res exp e
                                 (solved s ctx id req) He)
      as (n & new & Hn & _ & _ & Hne & Hout).
    destruct (Solve_export_ok E ctx (jobOf ctx id) res exp
                              (solved s ctx id req) (or_introl Hx))
      as [resp Hok].
    assert (Hfull : n = length (refsOf res) -> False).
    { intros ->. rewrite firstn_all in Hne. rewrite Forall_forall in Hne.
      by apply (Hne r). }
    destruct (Solve_phases E ctx (jobOf ctx id) res exp (solved s ctx id req)).1
      as [[v [err|]]|msg].
    + destruct Hout as [[Hall|(i & r' & k & tr & c & _ & _ & _ & Ha)]|Hno].
      * by destruct Hfull.
      * by rewrite Hans in Ha.
      * by rewrite Hok in Hno.
    + by destruct Hfull.
    + by destruct Hout as [-> _].
Qed.

(** ** The marker of the cache export, the status relay, and runs of
    the theorems on the calls above *)

Section Marker.

Variable E : Env.

(** The closure of [oneOffProgress] completes the marker, closes its
    writer and returns the error it was given; the error does not
    reach the status it writes. *)
Lemma prepareDone_run pw id st err s :
  prepareDone E pw id st err s
  = (Ret err,
     {| trace := trace s ++
                 [EvWrite pw id
                          (VStatus {| progress.Started := progress.Started st;
                                      progress.Completed :=
                                        Some (time_Now E (nows s)) |});
                  EvClose pw];
        jobs := jobs s;
        nows := S (nows s); ids := ids s; pws := pws s |}).
Proof.
  unfold prepareDone, bind, Now, Write, Close, emit, ret. simpl.
  by rewrite <- app_assoc.
Qed.

Lemma prepareDone_ignores_error pw id st err s :
  (prepareDone E pw id st err s).2 = (prepareDone E pw id st None s).2.
Proof. by rewrite !prepareDone_run. Qed.

Lemma Solve_jobs_after ctx id req exp s :
  jobs s !! id = None ->
  jobs (Solve E ctx id req exp s).2 !! id = None.
Proof.
  intros Hj.
  destruct (bridge_Solve E (trace s ++ [EvNewJob id]) (jobOf ctx id) ctx req)
    as [res|err] eqn:Hb.
  - rewrite (Solve_bridge_ok E _ _ _ _ _ _ Hj Hb). simpl.
    apply lookup_delete_eq.
  - rewrite (Solve_bridge_error E _ _ _ _ _ _ Hj Hb). simpl.
    apply lookup_delete_eq.
Qed.

End Marker.

(** C3, at a call whose first [ExportTo] fails with "boom": the call
    returns that error; the second reference of the Result gets no
    [ExportTo] call; the marker "preparing build cache for export" is
    written a second time, completed, and its writer is closed, before
    the vertex "exporting cache" is completed with the error "boom".
    The status written for the marker holds a start and a completion
    time and nothing of the error. *)
Theorem cache_export_failure_marker :
  Solve envFirstKeyFails ctx0 "j1" req0 xrCache state0
  = (Ret (None, Some (ErrOther "boom")),
     let vpw n := {| progress.pw_id := n;
                     progress.pw_meta := [("vertex", "sha256:a")] |} in
     let child := {| ctx_session := "sess"; ctx_job := Some "j1";
                     ctx_meta := [("vertex", "sha256:a")] |} in
     {| trace :=
          [EvNewJob "j1";
           EvBridgeSolve "j1" ctx0 req0;
           EvWrite (vpw 1) "sha256:a"
                   (VVertex {| client.Digest := "sha256:a";
                               client.Name := "exporting cache";
                               client.Started := Some 100;
                               client.Completed := None;
                               client.Cached := false;
                               client.Error := "" |});
           EvClose (vpw 1);
           EvWrite (vpw 2) "preparing build cache for export"
                   (VStatus {| progress.Started := Some 101;
                               progress.Completed := None |});
           EvExportTo {| key_id := 10 |} child registryCache
                      {| Convert := workerRefConverter; Mode := 1 |};
           EvWrite (vpw 2) "preparing build cache for export"
                   (VStatus {| progress.Started := Some 101;
                               progress.Completed := Some 102 |});
           EvClose (vpw 2);
           EvWrite (vpw 3) "sha256:a"
                   (VVertex {| client.Digest := "sha256:a";
                               client.Name := "exporting cache";
                               client.Started := Some 100;
                               client.Completed := Some 103;
                               client.Cached := false;
                               client.Error := "boom" |});
           EvClose (vpw 3);
           EvClose (vpw 0);
           release ref1;
           release ref2;
           EvDiscard "j1"];
        jobs := ∅; nows := 4; ids := 1; pws := 4 |}).
Proof. vm_compute. reflexivity. Qed.

(** C8: [Status] on an id that has no live job, because no job was
    made under it or because the call of Solve that made one has
    returned and discarded it, returns the error of the engine's lookup
    as it is, the not-found error of that id, and changes nothing:
    no event, so nothing sent to the channel. *)
Theorem Status_job_not_found (E : Env) ctx id statusChan s :
  jobs s !! id = None ->
  Status E ctx id statusChan s = (Ret (Some (ErrJobNotFound id)), s)
  /\ forall ctx' req exp,
      Status E ctx id statusChan (Solve E ctx' id req exp s).2
      = (Ret (Some (ErrJobNotFound id)), (Solve E ctx' id req exp s).2).
Proof.
  assert (Hnone : forall s', jobs s' !! id = None ->
                    Status E ctx id statusChan s'
                    = (Ret (Some (ErrJobNotFound id)), s')).
  { intros s' Hj. unfold Status, bind, Get. by rewrite Hj. }
  intros Hj. split; [by apply Hnone|].
  intros ctx' req exp. by apply Hnone, Solve_jobs_after.
Qed.


Lemma Solve_releases_every_ref_witness :
  jobs state0 !! "j1" = None
  /\ bridge_Solve envFirstKeyFails (trace state0 ++ [EvNewJob "j1"])
                  (jobOf ctx0 "j1") ctx0 req0 = inl res12
  /\ exists mid,
      trace (Solve envFirstKeyFails ctx0 "j1" req0 xrCache state0).2
      = trace state0 ++ [EvNewJob "j1"; EvBridgeSolve "j1" ctx0 req0] ++ mid
                     ++ map release (refsOf res12) ++ [EvDiscard "j1"]
      /\ forallb isPhase mid = true
      /\ goTasks (drop (length (trace state0))
                       (trace (Solve envFirstKeyFails ctx0 "j1" req0 xrCache
                                     state0).2))
         = map (fun r => TaskRelease r context_TODO) (refsOf res12).
Proof.
  refine (conj eq_refl (conj eq_refl _)).
  apply (Solve_releases_every_ref envFirstKeyFails ctx0 "j1" req0 xrCache
                                  state0 res12); reflexivity.
Defined.


Lemma Solve_invalid_reference_witness :
  jobs state0 !! "j1" = None
  /\ bridge_Solve (mkEnv (inl resBad) (None, None) (fun _ => None) None)
                  (trace state0 ++ [EvNewJob "j1"]) (jobOf ctx0 "j1") ctx0 req0
     = inl resBad
  /\ Exporter xrBoth = Some imageExporter
  /\ refBad ∈ refsOf resBad
  /\ Sys refBad = OtherSys "*foo.Ref"
  /\ exists r' ty',
      r' ∈ refsOf resBad /\ Sys r' = OtherSys ty'
      /\ Solve (mkEnv (inl resBad) (None, None) (fun _ => None) None)
               ctx0 "j1" req0 xrBoth state0
         = (Ret (None, Some (ErrInvalidReference ty')),
            {| trace := trace state0
                          ++ [EvNewJob "j1"; EvBridgeSolve "j1" ctx0 req0]
                          ++ map release (refsOf resBad) ++ [EvDiscard "j1"];
               jobs := jobs state0; nows := nows state0;
               ids := ids state0; pws := pws state0 |})
      /\ Error (ErrInvalidReference ty') = "invalid reference: " +:+ ty'.
Proof.
  assert (Hin : refBad ∈ refsOf resBad)
    by (apply elem_of_cons; right; apply elem_of_cons; by left).
  refine (conj eq_refl (conj eq_refl (conj eq_refl (conj Hin (conj eq_refl _))))).
  exact (Solve_invalid_reference
           (mkEnv (inl resBad) (None, None) (fun _ => None) None)
           ctx0 "j1" req0 xrBoth state0 resBad imageExporter refBad "*foo.Ref"
           eq_refl eq_refl eq_refl Hin eq_refl).
Defined.

Lemma Solve_without_exporters_witness :
  jobs state0 !! "j1" = None
  /\ bridge_Solve envOk (trace state0 ++ [EvNewJob "j1"])
                  (jobOf ctx0 "j1") ctx0 req0 = inl res12
  /\ Exporter xrNone = None
  /\ CacheExporter xrNone = None
  /\ exists resp new,
      (Solve envOk ctx0 "j1" req0 xrNone state0).1 = Ret (Some resp, None)
      /\ client.ExporterResponse resp = None
      /\ maplen (client.ExporterResponse resp) = 0
      /\ trace (Solve envOk ctx0 "j1" req0 xrNone state0).2
         = trace state0 ++ new
      /\ new = [EvNewJob "j1"; EvBridgeSolve "j1" ctx0 req0]
                 ++ map release (refsOf res12) ++ [EvDiscard "j1"]
      /\ filter (fun e => isVertexWrite e = true) new = []
      /\ forallb (fun e => negb (isProgress e)) new = true.
Proof.
  refine (conj eq_refl (conj eq_refl (conj eq_refl (conj eq_refl _)))).
  exact (Solve_without_exporters envOk ctx0 "j1" req0 xrNone state0 res12
                                 eq_refl eq_refl eq_refl eq_refl).
Defined.

Lemma Solve_discards_job_witness :
  jobs state0 !! "j1" = None
  /\ bridge_Solve envSolveFails (trace state0 ++ [EvNewJob "j1"])
                  (jobOf ctx0 "j1") ctx0 req0 = inr (ErrOther "solve failed")
  /\ Solve envSolveFails ctx0 "j1" req0 xrBoth state0
     = (Ret (None, Some (ErrOther "solve failed")),
        {| trace := trace state0
                      ++ [EvNewJob "j1"; EvBridgeSolve "j1" ctx0 req0;
                          EvDiscard "j1"];
           jobs := jobs state0; nows := nows state0;
           ids := ids state0; pws := pws state0 |}).
Proof.
  refine (conj eq_refl (conj eq_refl _)).
  exact (proj2 (Solve_discards_job envSolveFails ctx0 "j1" req0 xrBoth state0
                                   eq_refl)
               (ErrOther "solve failed") eq_refl).
Defined.

Lemma Status_job_not_found_witness :
  jobs state0 !! "j1" = None
  /\ Status envOk ctx0 "j1" 7 state0 = (Ret (Some (ErrJobNotFound "j1")), state0)
  /\ forall ctx' req exp,
      Status envOk ctx0 "j1" 7 (Solve envOk ctx' "j1" req exp state0).2
      = (Ret (Some (ErrJobNotFound "j1")),
         (Solve envOk ctx' "j1" req exp state0).2).
Proof.
  refine (conj eq_refl _).
  exact (Status_job_not_found envOk ctx0 "j1" 7 state0 eq_refl).
Defined.

Lemma Solve_passes_nil_refs_witness :
  jobs state0 !! "j1" = None
  /\ bridge_Solve envOk (trace state0 ++ [EvNewJob "j1"])
                  (jobOf ctx0 "j1") ctx0 req0 = inl res12
  /\ Exporter xrContent = Some imageExporter
  /\ Refs res12 = Some [("a", Some ref2); ("b", None)]
  /\ NoDup [("a", Some ref2); ("b", @None CachedResult)].*1
  /\ Forall (fun r => is_Some (immOf r)) (refsOf res12)
  /\ exists inp m c,
      exportSource res12 = inl inp
      /\ src_Refs inp = Some m
      /\ (forall k, (k, None) ∈ [("a", Some ref2); ("b", None)] ->
                    maplookup m k = Some None)
      /\ (forall k r, (k, Some r) ∈ [("a", Some ref2); ("b", None)] ->
                      maplookup m k = Some (immOf r))
      /\ EvExport imageExporter c inp
           ∈ trace (Solve envOk ctx0 "j1" req0 xrContent state0).2.
Proof.
  assert (Hnd : NoDup [("a", Some ref2); ("b", @None CachedResult)].*1).
  { apply NoDup_cons_2; [|apply NoDup_cons_2; [|apply NoDup_nil_2]].
    - intros [H|H]%elem_of_cons; [discriminate H | by apply elem_of_nil in H].
    - intros H. by apply elem_of_nil in H. }
  assert (Hall : Forall (fun r => is_Some (immOf r)) (refsOf res12)).
  { repeat constructor; by eexists. }
  refine (conj eq_refl (conj eq_refl (conj eq_refl (conj eq_refl
            (conj Hnd (conj Hall _)))))).
  exact (proj2 (Solve_passes_nil_refs envOk ctx0 "j1" req0 xrContent state0
                                      res12 imageExporter _
                                      eq_refl eq_refl eq_refl eq_refl Hnd)
               Hall).
Defined.

Lemma cache_export_first_key_index_witness :
  jobs state0 !! "j1" = None
  /\ bridge_Solve (mkEnv (inl resNoKeys) (None, None) (fun _ => None) None)
                  (trace state0 ++ [EvNewJob "j1"]) (jobOf ctx0 "j1") ctx0 req0
     = inl resNoKeys
  /\ CacheExporter xrCache = Some registryCache
  /\ refNoKeys ∈ refsOf resNoKeys
  /\ (Solve (mkEnv (inl resNoKeys) (None, None) (fun _ => None) None)
            ctx0 "j1" req0 xrCache state0).1
     = Panic "runtime error: index out of range".
Proof.
  assert (Hin : refNoKeys ∈ refsOf resNoKeys)
    by (apply elem_of_cons; right; apply elem_of_cons; by left).
  refine (conj eq_refl (conj eq_refl (conj eq_refl (conj Hin _)))).
  exact (proj2 (proj2 (proj2
           (cache_export_first_key_index
              (mkEnv (inl resNoKeys) (None, None) (fun _ => None) None)
              ctx0 "j1" req0 xrCache state0 resNoKeys registryCache
              eq_refl eq_refl eq_refl)))
           eq_refl (fun _ _ _ _ _ => eq_refl) refNoKeys Hin eq_refl).
Defined.

(** ** The construction of the orchestrator *)

(** X1: [New] fails exactly when the controller has no default worker,
    with the error of [GetDefault].  A bridge made by a [Solver] that
    [New] returned carries the platforms of the worker that was the
    default one when [New] ran, the frontend table and the cache
    importer resolver given to [New], the builder it is made for and an
    empty table of cache managers of its own, and it resolves the
    worker by asking the controller for its default worker at the time
    of the call. *)
Theorem New_Bridge_fields {Controller : Type}
        (GetDefault : Controller -> Worker + error) wc f cache resolveCI :
  (forall err,
      New GetDefault wc f cache resolveCI = inr err <-> GetDefault wc = inr err)
  /\ forall s,
      New GetDefault wc f cache resolveCI = inl s ->
      exists w,
        GetDefault wc = inl w
        /\ DefaultCache (solver s) = cache
        /\ forall b,
            bridge.platforms (Bridge s b) = Platforms w
            /\ bridge.frontends (Bridge s b) = f
            /\ bridge.resolveCacheImporter (Bridge s b) = resolveCI
            /\ bridge.builder (Bridge s b) = b
            /\ bridge.cms (Bridge s b) = Some []
            /\ forall wc', bridge.resolveWorker (Bridge s b) wc' = GetDefault wc'.
Proof.
  unfold New. destruct (GetDefault wc) as [w|e] eqn:Hw; split.
  - intros err. split; discriminate.
  - intros s [= <-]. exists w. by repeat split.
  - intros err. split; congruence.
  - discriminate.
Qed.

(** X2: the op resolver of a [Solver] made by [New] asks the controller
    for its default worker at each call.  Without a default worker it
    returns the error of [GetDefault] and no worker resolves the op;
    with one, that worker resolves the op on a new bridge for the
    builder, and the bridge still carries the platforms of the worker
    that was the default one when [New] ran. *)
Theorem resolver_asks_current_default_worker {Controller : Type}
        (GetDefault : Controller -> Worker + error)
        (ResolveOp : Worker -> solver_Vertex -> bridge.llbBridge Controller ->
                     solver_Op + error)
        wc f cache resolveCI s wc' v b :
  New GetDefault wc f cache resolveCI = inl s ->
  (forall err,
      GetDefault wc' = inr err -> resolver ResolveOp s wc' v b = inr err)
  /\ (forall w',
         GetDefault wc' = inl w' ->
         resolver ResolveOp s wc' v b = ResolveOp w' v (Bridge s b))
  /\ exists w,
      GetDefault wc = inl w
      /\ bridge.platforms (Bridge s b) = Platforms w.
Proof.
  unfold New. destruct (GetDefault wc) as [w|e] eqn:Hw; [|discriminate].
  intros [= <-]. unfold resolver, defaultResolver. simpl. split_and!.
  - by intros err ->.
  - by intros w' ->.
  - by exists w.
Qed.

Lemma resolver_asks_current_default_worker_witness :
  New firstWorker [linuxWorker] None {| cm_id := 0 |} {| importer_id := 0 |}
  = inl {| solver := {| DefaultCache := {| cm_id := 0 |} |};
           resolveWorker := defaultResolver firstWorker;
           frontends := None;
           resolveCacheImporter := {| importer_id := 0 |};
           platforms := Platforms linuxWorker |}
  /\ resolver opOfWorker
              {| solver := {| DefaultCache := {| cm_id := 0 |} |};
                 resolveWorker := defaultResolver firstWorker;
                 frontends := None;
                 resolveCacheImporter := {| importer_id := 0 |};
                 platforms := Platforms linuxWorker |}
              [armWorker; linuxWorker] {| vertex_id := 5 |}
              {| builder_id := "j1" |}
     = inl {| op_id := 2 |}
  /\ resolver opOfWorker
              {| solver := {| DefaultCache := {| cm_id := 0 |} |};
                 resolveWorker := defaultResolver firstWorker;
                 frontends := None;
                 resolveCacheImporter := {| importer_id := 0 |};
                 platforms := Platforms linuxWorker |}
              [] {| vertex_id := 5 |} {| builder_id := "j1" |}
     = inr (ErrOther "no default worker").
Proof.
  refine (conj eq_refl (conj _ _)).
  - exact (proj1 (proj2 (resolver_asks_current_default_worker
                           firstWorker opOfWorker [linuxWorker] None
                           {| cm_id := 0 |} {| importer_id := 0 |} _
                           [armWorker; linuxWorker] {| vertex_id := 5 |}
                           {| builder_id := "j1" |} eq_refl))
                 armWorker eq_refl).
  - exact (proj1 (resolver_asks_current_default_worker
                    firstWorker opOfWorker [linuxWorker] None
                    {| cm_id := 0 |} {| importer_id := 0 |} _
                    [] {| vertex_id := 5 |}
                    {| builder_id := "j1" |} eq_refl)
                 (ErrOther "no default worker") eq_refl).
Defined.

(** ** More on the calls of [Solve] *)

Section SolveOutcome.

Variable E : Env.

Lemma Solve_phases_outcome ctx j res exp s resp err :
  (Solve_phases E ctx j res exp s).1 = Ret (resp, err) ->
  (exists r, resp = Some r /\ err = None)
  \/ (exists e, resp = None /\ err = Some e).
Proof.
  unfold Solve_phases, bind.
  destruct (Solve_export E ctx j res exp s) as [[[x|e]|msg] s1]; simpl.
  - destruct (Solve_cacheExport E ctx j res exp s1) as [[[e|]|msg] s2]; simpl.
    + intros [= <- <-]. right. eauto.
    + intros [= <- <-]. left. eauto.
    + discriminate.
  - intros [= <- <-]. right. eauto.
  - discriminate.
Qed.

Lemma Solve_phases_jobs ctx j res exp s :
  jobs (Solve_phases E ctx j res exp s).2 = jobs s.
Proof. by destruct (emits_Solve_phases E ctx j res exp s) as (? & _ & _ & ?). Qed.

End SolveOutcome.

(** X3: a call of Solve under an id that has a live job returns the
    error of [NewJob] and does nothing else: the job that is live stays
    in the engine's table, is not discarded, and no event is added. *)
Theorem Solve_conflict_keeps_live_job (E : Env) ctx id req exp s j :
  jobs s !! id = Some j ->
  Solve E ctx id req exp s = (Ret (None, Some (ErrJobConflict id)), s)
  /\ jobs (Solve E ctx id req exp s).2 !! id = Some j
  /\ trace (Solve E ctx id req exp s).2 = trace s.
Proof.
  intros Hj. rewrite (Solve_conflict E ctx id req exp s j Hj). by simpl.
Qed.

Lemma Solve_conflict_keeps_live_job_witness :
  jobs (solved state0 ctx0 "j1" req0) !! "j1" = Some (jobOf ctx0 "j1")
  /\ Solve envOk ctx0 "j1" req0 xrBoth (solved state0 ctx0 "j1" req0)
     = (Ret (None, Some (ErrJobConflict "j1")), solved state0 ctx0 "j1" req0)
  /\ jobs (Solve envOk ctx0 "j1" req0 xrBoth (solved state0 ctx0 "j1" req0)).2
       !! "j1" = Some (jobOf ctx0 "j1")
  /\ trace (Solve envOk ctx0 "j1" req0 xrBoth (solved state0 ctx0 "j1" req0)).2
     = trace (solved state0 ctx0 "j1" req0).
Proof.
  refine (conj eq_refl _).
  exact (Solve_conflict_keeps_live_job envOk ctx0 "j1" req0 xrBoth
                                       (solved state0 ctx0 "j1" req0)
                                       (jobOf ctx0 "j1") eq_refl).
Defined.

(** X4: a call of Solve that returns hands back a response or an
    error, never both and never neither. *)
Theorem Solve_response_xor_error (E : Env) ctx id req exp s resp err :
  (Solve E ctx id req exp s).1 = Ret (resp, err) ->
  (exists r, resp = Some r /\ err = None)
  \/ (exists e, resp = None /\ err = Some e).
Proof.
  destruct (jobs s !! id) as [j|] eqn:Hj.
  - rewrite (Solve_conflict E ctx id req exp s j Hj). simpl.
    intros [= <- <-]. right. eauto.
  - destruct (bridge_Solve E (trace s ++ [EvNewJob id]) (jobOf ctx id) ctx req)
      as [res|e] eqn:Hb.
    + rewrite (Solve_bridge_ok E _ _ _ _ _ _ Hj Hb). simpl.
      apply Solve_phases_outcome.
    + rewrite (Solve_bridge_error E _ _ _ _ _ _ Hj Hb). simpl.
      intros [= <- <-]. right. eauto.
Qed.

Lemma Solve_response_xor_error_witness :
  (Solve envContentFails ctx0 "j1" req0 xrBoth state0).1
  = Ret (None, Some (ErrOther "push failed"))
  /\ ((exists r, @None client.SolveResponse = Some r
                 /\ Some (ErrOther "push failed") = None)
      \/ (exists e, @None client.SolveResponse = None
                    /\ Some (ErrOther "push failed") = Some e)).
Proof.
  refine (conj eq_refl _).
  exact (Solve_response_xor_error envContentFails ctx0 "j1" req0 xrBoth state0
                                  None (Some (ErrOther "push failed")) eq_refl).
Defined.

(** X5: while the phases of a call of Solve run, its job is live in
    the engine's table under the id of the call, with the session
    identifier of the caller's context; when the call has ended, with a
    response, an error or a panic, the engine's table is what it was
    before the call: no other job was touched. *)
Theorem Solve_job_live_during_phases (E : Env) ctx id req exp s res :
  jobs s !! id = None ->
  bridge_Solve E (trace s ++ [EvNewJob id]) (jobOf ctx id) ctx req = inl res ->
  jobs (Solve_phases E ctx (jobOf ctx id) res exp (solved s ctx id req)).2 !! id
  = Some {| job_id := id; SessionID := session_FromContext ctx |}
  /\ (Solve E ctx id req exp s).2
     = returned (Solve_phases E ctx (jobOf ctx id) res exp
                              (solved s ctx id req)).2 id (refsOf res)
  /\ jobs (Solve E ctx id req exp s).2 = jobs s.
Proof.
  intros Hj Hb. rewrite (Solve_bridge_ok E _ _ _ _ _ _ Hj Hb). simpl.
  rewrite Solve_phases_jobs. simpl. split_and!.
  - apply lookup_insert_eq.
  - done.
  - rewrite delete_insert_eq. by apply delete_id.
Qed.

Lemma Solve_job_live_during_phases_witness :
  jobs state0 !! "j1" = None
  /\ bridge_Solve envOk (trace state0 ++ [EvNewJob "j1"])
                  (jobOf ctx0 "j1") ctx0 req0 = inl res12
  /\ jobs (Solve_phases envOk ctx0 (jobOf ctx0 "j1") res12 xrBoth
                        (solved state0 ctx0 "j1" req0)).2 !! "j1"
     = Some {| job_id := "j1"; SessionID := "sess" |}
  /\ jobs (Solve envOk ctx0 "j1" req0 xrBoth state0).2 = jobs state0.
Proof.
  refine (conj eq_refl (conj eq_refl _)).
  pose proof (Solve_job_live_during_phases envOk ctx0 "j1" req0 xrBoth state0
                                           res12 eq_refl eq_refl) as H.
  exact (conj (proj1 H) (proj2 (proj2 H))).
Defined.

(** ** The events of the two export phases *)

Section PhaseEvents.

Variable E : Env.

Lemma closedWriters_app l1 l2 :
  closedWriters (l1 ++ l2) = closedWriters l1 ++ closedWriters l2.
Proof. apply omap_app. Qed.

Lemma finalizeCalls_app l1 l2 :
  finalizeCalls (l1 ++ l2) = finalizeCalls l1 ++ finalizeCalls l2.
Proof. apply omap_app. Qed.

Lemma exportCalls_app l1 l2 :
  exportCalls (l1 ++ l2) = exportCalls l1 ++ exportCalls l2.
Proof. apply omap_app. Qed.

Lemma exportToEvents_quiet ctx e opt l :
  closedWriters (exportToEvents ctx e opt l) = []
  /\ finalizeCalls (exportToEvents ctx e opt l) = []
  /\ forallb isCacheExport (exportToEvents ctx e opt l) = true
  /\ Forall (inContext ctx) (exportToEvents ctx e opt l).
Proof.
  induction l as [|r l (IH1 & IH2 & IH3 & IH4)]; [by repeat split|].
  unfold exportToEvents, closedWriters, finalizeCalls in *. cbn.
  destruct (head (CacheKeys r)); cbn; [|done].
  split_and!; [done | done | done | by apply Forall_cons].
Qed.

(** The loop of the cache export when no reference lacks a key and no
    call fails *)
Lemma eachOf_all_exported e exp ctx l s :
  Forall (fun r => CacheKeys r <> []) l ->
  (forall tr k c t o, key_ExportTo E tr k c t o = None) ->
  eachOf (exportFirstKey E e exp ctx) l s
  = (Ret None, addEvents s (exportToEvents ctx e (exportOpt exp) l)).
Proof.
  intros Hkeys Hans. revert s.
  induction Hkeys as [|r l Hr _ IH]; intros s.
  - simpl. unfold ret. by rewrite addEvents_nil.
  - destruct (CacheKeys r) as [|k ks] eqn:Hk; [done|].
    rewrite (eachOf_first_key E _ _ _ _ _ _ _ _ Hk), Hans, IH, addEvents_app.
    unfold exportToEvents. cbn. by rewrite Hk.
Qed.

(** The events of the content export *)
Lemma Solve_export_events ctx j res exp s :
  exists a k,
    trace (Solve_export E ctx j res exp s).2 = trace s ++ a
    /\ forallb isContentExport a = true
    /\ Forall (inContext (childContext E (Job_Context j ctx) s)) a
    /\ length (exportCalls a) <= 1
    /\ pws (Solve_export E ctx j res exp s).2 = pws s + k
    /\ closedWriters a ≡ₚ seq (pws s) k
    /\ ((a = [] /\ ids (Solve_export E ctx j res exp s).2 = ids s)
        \/ (a <> [] /\ ids (Solve_export E ctx j res exp s).2 = S (ids s))).
Proof.
  assert (Hquiet : forall v,
             Solve_export E ctx j res exp s = (Ret v, s) ->
             exists a k,
               trace (Solve_export E ctx j res exp s).2 = trace s ++ a
               /\ forallb isContentExport a = true
               /\ Forall (inContext (childContext E (Job_Context j ctx) s)) a
               /\ length (exportCalls a) <= 1
               /\ pws (Solve_export E ctx j res exp s).2 = pws s + k
               /\ closedWriters a ≡ₚ seq (pws s) k
               /\ ((a = [] /\ ids (Solve_export E ctx j res exp s).2 = ids s)
                   \/ (a <> []
                       /\ ids (Solve_export E ctx j res exp s).2 = S (ids s)))).
  { intros v ->. exists [], 0. simpl. rewrite app_nil_r.
    split_and!; [done | done | done | lia | lia | done | by left]. }
  destruct (Exporter exp) as [x|] eqn:Hx;
    [|apply (Hquiet (inl None)); unfold Solve_export; by rewrite Hx].
  destruct (exportSource res) as [inp|err] eqn:Hsrc;
    [|apply (Hquiet (inr err)); unfold Solve_export; by rewrite Hx, Hsrc].
  rewrite (Solve_export_run E _ _ _ _ _ _ _ Hx Hsrc). simpl.
  eexists _, 3. rewrite <- !app_assoc. simpl.
  split_and!; [reflexivity | done | | simpl; lia | lia | | by right].
  - repeat (apply Forall_cons; split; [done|]). done.
  - simpl. symmetry.
    apply (Permutation_cons_append [S (pws s); S (S (pws s))] (pws s)).
Qed.

(** The events of the cache export *)
Lemma Solve_cacheExport_events ctx j res exp e s :
  CacheExporter exp = Some e ->
  exists b,
    trace (Solve_cacheExport E ctx j res exp s).2 = trace s ++ b
    /\ forallb isCacheExport b = true
    /\ Forall (inContext (childContext E (Job_Context j ctx) s)) b
    /\ (finalizeCalls b = []
        \/ exists pre post,
            b = pre ++ EvFinalize e (childContext E (Job_Context j ctx) s)
                    :: post
            /\ finalizeCalls pre = [] /\ finalizeCalls post = []
            /\ exportToCalls post = []
            /\ exportToCalls pre
               = firstKeyCalls e (exportOpt exp) (refsOf res)
            /\ Forall (fun r => CacheKeys r <> []) (refsOf res))
    /\ ((exists v, (Solve_cacheExport E ctx j res exp s).1 = Ret v) ->
        pws (Solve_cacheExport E ctx j res exp s).2 = pws s + 4
        /\ closedWriters b ≡ₚ seq (pws s) 4).
Proof.
  intros He. rewrite (Solve_cacheExport_run E _ _ _ _ _ _ He).
  rewrite cacheExportClosure_run.
  set (c := childContext E (Job_Context j ctx) s).
  set (s1 := startedState E (Job_Context j ctx) "exporting cache" s).
  destruct (eachOf_exportFirstKey E e exp c (refsOf res)
                                  (markerStarted E c s1))
    as (n & Hn & Hst & Hne & Hout).
  destruct (exportToEvents_quiet c e (exportOpt exp) (take n (refsOf res)))
    as (Hq1 & Hq2 & Hq3 & Hq4).
  destruct (eachOf (exportFirstKey E e exp c) (refsOf res)
                   (markerStarted E c s1)) as [[[err|]|msg] s2];
    simpl in Hst, Hout; subst s2; eexists;
    (split; [simpl; rewrite <- !app_assoc; reflexivity|]).
  - split_and!.
    + simpl. by rewrite forallb_app, Hq3.
    + repeat (apply Forall_cons; split; [done|]).
      apply Forall_app. split; [done|].
      repeat (apply Forall_cons; split; [done|]). done.
    + left. cbn. by rewrite !finalizeCalls_app, Hq2.
    + intros _. simpl. split; [lia|].
      cbn. rewrite !closedWriters_app, Hq1. cbn. symmetry.
      apply (Permutation_cons_append
               [S (pws s); S (S (pws s)); S (S (S (pws s)))] (pws s)).
  - subst n. rewrite firstn_all in *. split_and!.
    + simpl. by rewrite forallb_app, Hq3.
    + repeat (apply Forall_cons; split; [done|]).
      apply Forall_app. split; [done|].
      repeat (apply Forall_cons; split; [done|]). done.
    + right.
      eexists (_ :: _ :: _ :: exportToEvents c e (exportOpt exp) (refsOf res)
                 ++ [_; _]), [_; _; _].
      split_and!.
      * simpl. rewrite <- !app_assoc. reflexivity.
      * cbn. by rewrite finalizeCalls_app, Hq2.
      * done.
      * done.
      * cbn. rewrite exportToCalls_app, exportToCalls_events. cbn.
        by rewrite app_nil_r.
      * done.
    + intros _. simpl. split; [lia|].
      cbn. rewrite !closedWriters_app, Hq1. cbn. symmetry.
      apply (Permutation_cons_append
               [S (pws s); S (S (pws s)); S (S (S (pws s)))] (pws s)).
  - split_and!.
    + simpl. rewrite forallb_app, Hq3. done.
    + repeat (apply Forall_cons; split; [done|]).
      apply Forall_app. split; [done|].
      repeat (apply Forall_cons; split; [done|]). done.
    + left. cbn. by rewrite !finalizeCalls_app, Hq2.
    + by intros [v Hv].
Qed.

End PhaseEvents.

Section PhasesTogether.

Variable E : Env.

Lemma finalizeCalls_content l :
  forallb isContentExport l = true -> finalizeCalls l = [].
Proof.
  induction l as [|ev l IH]; [done|]. simpl.
  intros [He Hl]%andb_prop. unfold finalizeCalls in *. simpl.
  destruct ev; try discriminate He; by apply IH.
Qed.

Lemma closedWriters_release l : closedWriters (map release l) = [].
Proof. by induction l. Qed.

Lemma finalizeCalls_release l : finalizeCalls (map release l) = [].
Proof. by induction l. Qed.

(** The events of the phases of a call: those of the content export,
    then those of the cache export *)
Lemma Solve_phases_events ctx j res exp s :
  exists a b n,
    trace (Solve_phases E ctx j res exp s).2 = trace s ++ a ++ b
    /\ forallb isContentExport a = true
    /\ forallb isCacheExport b = true
    /\ length (exportCalls a) <= 1
    /\ Forall (inContext (phaseContext ctx (job_id j)
                 (digest_FromBytes E (identity_NewID E (ids s))))) a
    /\ ((a = [] /\ n = ids s) \/ (a <> [] /\ n = S (ids s)))
    /\ Forall (inContext (phaseContext ctx (job_id j)
                 (digest_FromBytes E (identity_NewID E n)))) b
    /\ (finalizeCalls b = []
        \/ exists e c pre post,
            CacheExporter exp = Some e
            /\ b = pre ++ EvFinalize e c :: post
            /\ finalizeCalls pre = [] /\ finalizeCalls post = []
            /\ exportToCalls post = []
            /\ exportToCalls pre
               = firstKeyCalls e (exportOpt exp) (refsOf res)
            /\ Forall (fun r => CacheKeys r <> []) (refsOf res))
    /\ ((exists v, (Solve_phases E ctx j res exp s).1 = Ret v) ->
        exists k,
          pws (Solve_phases E ctx j res exp s).2 = pws s + k
          /\ closedWriters (a ++ b) ≡ₚ seq (pws s) k).
Proof.
  unfold Solve_phases, bind.
  destruct (Solve_export_events E ctx j res exp s)
    as (a & k & Ht & Hca & Hctx & Hx & Hpws & Hcl & Hids).
  destruct (Solve_export_returns E ctx j res exp s) as [v Hv].
  destruct (Solve_export E ctx j res exp s) as [o s1].
  simpl in Ht, Hpws, Hids, Hv. subst o.
  assert (Hn : exists n, n = ids s1
                 /\ ((a = [] /\ n = ids s) \/ (a <> [] /\ n = S (ids s))))
    by (exists (ids s1); split; [done | destruct Hids as [[? ?]|[? ?]]; eauto]).
  destruct Hn as (n & Hn1 & Hn).
  assert (Hnone : forall o,
             exists b,
               trace ((o, s1) : outcome (option client.SolveResponse
                                         * option error) * State).2
               = trace s ++ a ++ b
               /\ forallb isCacheExport b = true
               /\ Forall (inContext (phaseContext ctx (job_id j)
                            (digest_FromBytes E (identity_NewID E n)))) b
               /\ finalizeCalls b = []
               /\ pws s1 = pws s + k
               /\ closedWriters (a ++ b) ≡ₚ seq (pws s) k).
  { intros o. exists []. simpl. rewrite app_nil_r.
    split_and!; done. }
  destruct v as [resp|err].
  - destruct (CacheExporter exp) as [e|] eqn:He.
    + destruct (Solve_cacheExport_events E ctx j res exp e s1 He)
        as (b & Htb & Hcb & Hctxb & Hfin & Hbal).
      exists a, b, n.
      assert (Hsame :
                childContext E (Job_Context j ctx) s1
                = phaseContext ctx (job_id j)
                               (digest_FromBytes E (identity_NewID E n)))
        by (by rewrite Hn1).
      rewrite Hsame in Hctxb, Hfin.
      destruct (Solve_cacheExport E ctx j res exp s1) as [[[err|]|msg] s2];
        simpl in *;
        (split_and!;
         [ by rewrite Htb, Ht, app_assoc | done | done | done | done | done
         | done
         | destruct Hfin as [Hfin|(pre & post & Hfin)];
           [by left
           | right; eexists e, _, pre, post; split; [done | exact Hfin]]
         | ]).
      * intros _. destruct Hbal as [Hp Hc]; [by eauto|].
        exists (k + 4). split; [lia|].
        rewrite closedWriters_app, Hc, Hcl, Hpws, seq_app. simpl. reflexivity.
      * intros _. destruct Hbal as [Hp Hc]; [by eauto|].
        exists (k + 4). split; [lia|].
        rewrite closedWriters_app, Hc, Hcl, Hpws, seq_app. simpl. reflexivity.
      * by intros [v Hv].
    + unfold Solve_cacheExport. rewrite He. simpl.
      destruct (Hnone (Ret (Some {| client.ExporterResponse := resp |},
                            None)))
        as (b & Htb & Hcb & Hctxb & Hfin & Hp & Hc).
      exists a, b, n.
      split_and!; [done | done | done | done | done | done | done
                   | by left | intros _; by exists k].
  - simpl. destruct (Hnone (Ret (None, Some err)))
      as (b & Htb & Hcb & Hctxb & Hfin & Hp & Hc).
    exists a, b, n.
    split_and!; [done | done | done | done | done | done | done
                 | by left | intros _; by exists k].
Qed.

End PhasesTogether.

Lemma exportCalls_cache l :
  forallb isCacheExport l = true -> exportCalls l = [].
Proof.
  induction l as [|ev l IH]; [done|]. simpl.
  intros [He Hl]%andb_prop. unfold exportCalls in *. simpl.
  destruct ev; try discriminate He; by apply IH.
Qed.

(** X9: in a call of Solve whose solve step returns a Result, the
    events of the content export come first and those of the cache
    export after them: every [Export] call comes before every
    [ExportTo] and [Finalize] call, and there is at most one [Export]
    call. *)
Theorem Solve_export_before_cache_export (E : Env) ctx id req exp s res :
  jobs s !! id = None ->
  bridge_Solve E (trace s ++ [EvNewJob id]) (jobOf ctx id) ctx req = inl res ->
  exists a b,
    trace (Solve E ctx id req exp s).2
    = trace s ++ [EvNewJob id; EvBridgeSolve id ctx req] ++ a ++ b
              ++ map release (refsOf res) ++ [EvDiscard id]
    /\ forallb isContentExport a = true
    /\ forallb isCacheExport b = true
    /\ length (exportCalls a) <= 1
    /\ exportToCalls a = [] /\ finalizeCalls a = []
    /\ exportCalls b = [].
Proof.
  intros Hj Hb. rewrite (Solve_bridge_ok E _ _ _ _ _ _ Hj Hb). simpl.
  destruct (Solve_phases_events E ctx (jobOf ctx id) res exp
                                (solved s ctx id req))
    as (a & b & n & Ht & Ha & Hcb & Hx & _).
  exists a, b. rewrite Ht. simpl. rewrite <- !app_assoc. simpl.
  split_and!; [done | done | done | done | | | ].
  - by apply exportToCalls_content.
  - by apply finalizeCalls_content.
  - by apply exportCalls_cache.
Qed.

Lemma Solve_export_before_cache_export_witness :
  jobs state0 !! "j1" = None
  /\ bridge_Solve envOk (trace state0 ++ [EvNewJob "j1"])
                  (jobOf ctx0 "j1") ctx0 req0 = inl res12
  /\ exists a b,
      trace (Solve envOk ctx0 "j1" req0 xrBoth state0).2
      = trace state0 ++ [EvNewJob "j1"; EvBridgeSolve "j1" ctx0 req0] ++ a ++ b
                     ++ map release (refsOf res12) ++ [EvDiscard "j1"]
      /\ forallb isContentExport a = true
      /\ forallb isCacheExport b = true
      /\ length (exportCalls a) <= 1
      /\ exportToCalls a = [] /\ finalizeCalls a = []
      /\ exportCalls b = [].
Proof.
  refine (conj eq_refl (conj eq_refl _)).
  exact (Solve_export_before_cache_export envOk ctx0 "j1" req0 xrBoth state0
                                          res12 eq_refl eq_refl).
Defined.

(** X10: a call of Solve with a cache exporter calls [Finalize] at
    most once, and only when every reference of the Result has had its
    [ExportTo] call: all [ExportTo] calls of the call, one on the first
    cache key of each reference, come before the [Finalize] call and
    none comes after it. *)
Theorem Solve_finalize_after_exports (E : Env) ctx id req exp s res e :
  jobs s !! id = None ->
  bridge_Solve E (trace s ++ [EvNewJob id]) (jobOf ctx id) ctx req = inl res ->
  CacheExporter exp = Some e ->
  exists new,
    trace (Solve E ctx id req exp s).2 = trace s ++ new
    /\ (finalizeCalls new = []
        \/ exists c pre post,
            new = pre ++ EvFinalize e c :: post
            /\ finalizeCalls pre = [] /\ finalizeCalls post = []
            /\ exportToCalls post = []
            /\ exportToCalls pre
               = firstKeyCalls e {| Convert := workerRefConverter;
                                    Mode := CacheExportMode exp |}
                               (refsOf res)
            /\ Forall (fun r => CacheKeys r <> []) (refsOf res)).
Proof.
  intros Hj Hb He. rewrite (Solve_bridge_ok E _ _ _ _ _ _ Hj Hb). simpl.
  destruct (Solve_phases_events E ctx (jobOf ctx id) res exp
                                (solved s ctx id req))
    as (a & b & n & Ht & Ha & Hcb & _ & _ & _ & _ & Hfin & _).
  rewrite Ht. simpl. rewrite <- !app_assoc. simpl.
  eexists. split; [reflexivity|].
  destruct Hfin as [Hfin|(e' & c & pre & post & He' & -> & Hf1 & Hf2 & Hc2 & Hc1
                          & Hkeys)].
  - left. cbn.
    change (finalizeCalls (a ++ b ++ map release (refsOf res) ++ [EvDiscard id])
            = []).
    by rewrite !finalizeCalls_app, (finalizeCalls_content _ Ha), Hfin,
      finalizeCalls_release.
  - right. rewrite He in He'. injection He' as <-.
    exists c, ([EvNewJob id; EvBridgeSolve id ctx req] ++ a ++ pre),
      (post ++ map release (refsOf res) ++ [EvDiscard id]).
    split_and!.
    + simpl. by rewrite <- !app_assoc.
    + change (finalizeCalls (a ++ pre) = []).
      by rewrite finalizeCalls_app, (finalizeCalls_content _ Ha), Hf1.
    + by rewrite !finalizeCalls_app, Hf2, finalizeCalls_release.
    + by rewrite !exportToCalls_app, Hc2, exportToCalls_release.
    + change (exportToCalls (a ++ pre)
              = firstKeyCalls e (exportOpt exp) (refsOf res)).
      by rewrite exportToCalls_app, (exportToCalls_content _ Ha), Hc1.
    + done.
Qed.

Lemma Solve_finalize_after_exports_witness :
  jobs state0 !! "j1" = None
  /\ bridge_Solve envOk (trace state0 ++ [EvNewJob "j1"])
                  (jobOf ctx0 "j1") ctx0 req0 = inl res12
  /\ CacheExporter xrBoth = Some registryCache
  /\ exists new,
      trace (Solve envOk ctx0 "j1" req0 xrBoth state0).2 = trace state0 ++ new
      /\ (finalizeCalls new = []
          \/ exists c pre post,
              new = pre ++ EvFinalize registryCache c :: post
              /\ finalizeCalls pre = [] /\ finalizeCalls post = []
              /\ exportToCalls post = []
              /\ exportToCalls pre
                 = firstKeyCalls registryCache
                                 {| Convert := workerRefConverter;
                                    Mode := CacheExportMode xrBoth |}
                                 (refsOf res12)
              /\ Forall (fun r => CacheKeys r <> []) (refsOf res12)).
Proof.
  refine (conj eq_refl (conj eq_refl (conj eq_refl _))).
  exact (Solve_finalize_after_exports envOk ctx0 "j1" req0 xrBoth state0 res12
                                      registryCache eq_refl eq_refl eq_refl).
Defined.

(** X11: a call of Solve that returns, with a response or with an
    error, has closed every progress writer that it made, each exactly
    once: the writers closed by the events of the call are, in some
    order, the writers numbered from the count before the call to the
    count after it. *)
Theorem Solve_closes_its_writers (E : Env) ctx id req exp s v :
  (Solve E ctx id req exp s).1 = Ret v ->
  exists new k,
    trace (Solve E ctx id req exp s).2 = trace s ++ new
    /\ pws (Solve E ctx id req exp s).2 = pws s + k
    /\ closedWriters new ≡ₚ seq (pws s) k.
Proof.
  destruct (jobs s !! id) as [j|] eqn:Hj.
  - rewrite (Solve_conflict E ctx id req exp s j Hj). simpl. intros _.
    exists [], 0. rewrite app_nil_r. split_and!; [done | lia | done].
  - destruct (bridge_Solve E (trace s ++ [EvNewJob id]) (jobOf ctx id) ctx req)
      as [res|e] eqn:Hb.
    + rewrite (Solve_bridge_ok E _ _ _ _ _ _ Hj Hb). simpl. intros Hv.
      destruct (Solve_phases_events E ctx (jobOf ctx id) res exp
                                    (solved s ctx id req))
        as (a & b & n & Ht & _ & _ & _ & _ & _ & _ & _ & Hbal).
      destruct Hbal as (k & Hp & Hc); [by eauto|].
      exists ([EvNewJob id; EvBridgeSolve id ctx req] ++ (a ++ b)
              ++ map release (refsOf res) ++ [EvDiscard id]), k.
      rewrite Ht. simpl. rewrite <- !app_assoc. simpl.
      split_and!; [done | done |].
      rewrite (app_assoc a b), (closedWriters_app (a ++ b)), Hc,
        closedWriters_app, closedWriters_release.
      simpl. by rewrite app_nil_r.
    + rewrite (Solve_bridge_error E _ _ _ _ _ _ Hj Hb). simpl. intros _.
      exists [EvNewJob id; EvBridgeSolve id ctx req; EvDiscard id], 0.
      rewrite <- !app_assoc. split_and!; [done | lia | done].
Qed.

Lemma Solve_closes_its_writers_witness :
  (Solve envFirstKeyFails ctx0 "j1" req0 xrBoth state0).1
  = Ret (None, Some (ErrOther "boom"))
  /\ exists new k,
      trace (Solve envFirstKeyFails ctx0 "j1" req0 xrBoth state0).2
      = trace state0 ++ new
      /\ pws (Solve envFirstKeyFails ctx0 "j1" req0 xrBoth state0).2
         = pws state0 + k
      /\ closedWriters new ≡ₚ seq (pws state0) k.
Proof.
  refine (conj eq_refl _).
  exact (Solve_closes_its_writers envFirstKeyFails ctx0 "j1" req0 xrBoth state0
                                  (None, Some (ErrOther "boom")) eq_refl).
Defined.



(** ** The traces of the two export phases *)

(** X6: a call of Solve with a content exporter, whose export source
    is made, writes one vertex named after the exporter, started and
    then completed, around one [Export] call on that source.  When the
    exporter returns no error and there is no cache exporter, the
    response of the call holds the map that the exporter returned.
    When the exporter returns an error, the call returns that error,
    drops the map, records the message of the error on the completed
    vertex and leaves the cache exporter alone. *)
Theorem Solve_content_export (E : Env) ctx id req exp s res x inp resp oerr :
  jobs s !! id = None ->
  bridge_Solve E (trace s ++ [EvNewJob id]) (jobOf ctx id) ctx req = inl res ->
  Exporter exp = Some x ->
  exportSource res = inl inp ->
  (forall tr c, exporter_Export E tr x c inp = (resp, oerr)) ->
  (oerr = None -> CacheExporter exp = None) ->
  let d := digest_FromBytes E (identity_NewID E (ids s)) in
  let c := {| ctx_session := ctx_session ctx; ctx_job := Some id;
              ctx_meta := ctx_meta ctx ++ [("vertex", d)] |} in
  let pw n := {| progress.pw_id := n; progress.pw_meta := ctx_meta c |} in
  let vertex completed error :=
      {| client.Digest := d; client.Name := Name x;
         client.Started := Some (time_Now E (nows s));
         client.Completed := completed;
         client.Cached := false;
         client.Error := error |} in
  Solve E ctx id req exp s
  = (Ret match oerr with
         | Some err => (None, Some err)
         | None => (Some {| client.ExporterResponse := resp |}, None)
         end,
     {| trace :=
          trace s
          ++ [EvNewJob id;
              EvBridgeSolve id ctx req;
              EvWrite (pw (S (pws s))) d (VVertex (vertex None ""));
              EvClose (pw (S (pws s)));
              EvExport x c inp;
              EvWrite (pw (S (S (pws s)))) d
                      (VVertex (vertex (Some (time_Now E (S (nows s))))
                                       match oerr with
                                       | Some err => Error err
                                       | None => ""
                                       end));
              EvClose (pw (S (S (pws s))));
              EvClose (pw (pws s))]
          ++ map release (refsOf res) ++ [EvDiscard id];
        jobs := jobs s;
        nows := S (S (nows s)); ids := S (ids s); pws := S (S (S (pws s))) |}).
Proof.
  intros Hj Hb Hx Hsrc Hans Hcache d c pw vertex.
  rewrite (Solve_bridge_ok E _ _ _ _ _ _ Hj Hb).
  unfold Solve_phases, bind.
  rewrite (Solve_export_run E _ _ _ _ _ _ _ Hx Hsrc). simpl.
  rewrite Hans. simpl.
  destruct oerr as [err|]; simpl.
  - unfold returned. simpl. rewrite delete_insert_eq, delete_id by done.
    by rewrite <- !app_assoc.
  - unfold Solve_cacheExport. rewrite (Hcache eq_refl). simpl.
    unfold returned. simpl. rewrite delete_insert_eq, delete_id by done.
    by rewrite <- !app_assoc.
Qed.

Lemma Solve_content_export_witness :
  jobs state0 !! "j1" = None
  /\ bridge_Solve envContentFails (trace state0 ++ [EvNewJob "j1"])
                  (jobOf ctx0 "j1") ctx0 req0 = inl res12
  /\ Exporter xrBoth = Some imageExporter
  /\ (exists inp, exportSource res12 = inl inp)
  /\ Solve envContentFails ctx0 "j1" req0 xrBoth state0
     = (Ret (None, Some (ErrOther "push failed")),
        let c := {| ctx_session := "sess"; ctx_job := Some "j1";
                    ctx_meta := [("vertex", "sha256:a")] |} in
        let pw n := {| progress.pw_id := n;
                       progress.pw_meta := [("vertex", "sha256:a")] |} in
        let vertex completed error :=
            {| client.Digest := "sha256:a"; client.Name := "image";
               client.Started := Some 100;
               client.Completed := completed;
               client.Cached := false;
               client.Error := error |} in
        {| trace :=
             [EvNewJob "j1";
              EvBridgeSolve "j1" ctx0 req0;
              EvWrite (pw 1) "sha256:a" (VVertex (vertex None ""));
              EvClose (pw 1);
              EvExport imageExporter c
                       {| src_Metadata := None;
                          src_Ref := Some {| imm_id := 1 |};
                          src_Refs := Some [("a", Some {| imm_id := 2 |});
                                            ("b", None)] |};
              EvWrite (pw 2) "sha256:a"
                      (VVertex (vertex (Some 101) "push failed"));
              EvClose (pw 2);
              EvClose (pw 0);
              release ref1; release ref2;
              EvDiscard "j1"];
           jobs := ∅; nows := 2; ids := 1; pws := 3 |}).
Proof.
  refine (conj eq_refl (conj eq_refl (conj eq_refl
            (conj (ex_intro _ _ eq_refl) _)))).
  exact (Solve_content_export envContentFails ctx0 "j1" req0 xrBoth state0
                              res12 imageExporter _ None
                              (Some (ErrOther "push failed"))
                              eq_refl eq_refl eq_refl eq_refl
                              (fun _ _ => eq_refl)
                              (fun H => ltac:(discriminate H))).
Defined.

(** X7: a call of Solve with a cache exporter and no content exporter,
    on a Result whose references all have a cache key, when no
    [ExportTo] call fails: inside the vertex "exporting cache" the
    marker "preparing build cache for export" is started, every
    reference gets its [ExportTo] call in order, the marker is
    completed and its writer closed, and [Finalize] is called once,
    after the marker.  The call returns the error of [Finalize], which
    is recorded on the completed vertex, or else a response with the
    nil map. *)
Theorem Solve_cache_export_trace (E : Env) ctx id req exp s res e ferr :
  jobs s !! id = None ->
  bridge_Solve E (trace s ++ [EvNewJob id]) (jobOf ctx id) ctx req = inl res ->
  Exporter exp = None ->
  CacheExporter exp = Some e ->
  Forall (fun r => CacheKeys r <> []) (refsOf res) ->
  (forall tr k c t o, key_ExportTo E tr k c t o = None) ->
  (forall tr c, cache_Finalize E tr e c = ferr) ->
  let d := digest_FromBytes E (identity_NewID E (ids s)) in
  let c := {| ctx_session := ctx_session ctx; ctx_job := Some id;
              ctx_meta := ctx_meta ctx ++ [("vertex", d)] |} in
  let pw n := {| progress.pw_id := n; progress.pw_meta := ctx_meta c |} in
  let opt := {| Convert := workerRefConverter; Mode := CacheExportMode exp |} in
  let vertex completed error :=
      {| client.Digest := d; client.Name := "exporting cache";
         client.Started := Some (time_Now E (nows s));
         client.Completed := completed;
         client.Cached := false;
         client.Error := error |} in
  let status completed :=
      {| progress.Started := Some (time_Now E (S (nows s)));
         progress.Completed := completed |} in
  Solve E ctx id req exp s
  = (Ret match ferr with
         | Some err => (None, Some err)
         | None => (Some {| client.ExporterResponse := None |}, None)
         end,
     {| trace :=
          trace s
          ++ [EvNewJob id;
              EvBridgeSolve id ctx req;
              EvWrite (pw (S (pws s))) d (VVertex (vertex None ""));
              EvClose (pw (S (pws s)));
              EvWrite (pw (S (S (pws s)))) "preparing build cache for export"
                      (VStatus (status None))]
          ++ exportToEvents c e opt (refsOf res)
          ++ [EvWrite (pw (S (S (pws s)))) "preparing build cache for export"
                      (VStatus (status (Some (time_Now E (S (S (nows s)))))));
              EvClose (pw (S (S (pws s))));
              EvFinalize e c;
              EvWrite (pw (S (S (S (pws s))))) d
                      (VVertex (vertex (Some (time_Now E (S (S (S (nows s))))))
                                       match ferr with
                                       | Some err => Error err
                                       | None => ""
                                       end));
              EvClose (pw (S (S (S (pws s)))));
              EvClose (pw (pws s))]
          ++ map release (refsOf res) ++ [EvDiscard id];
        jobs := jobs s;
        nows := S (S (S (S (nows s)))); ids := S (ids s);
        pws := S (S (S (S (pws s)))) |}).
Proof.
  intros Hj Hb Hx He Hkeys Hans Hfin d c pw opt vertex status.
  rewrite (Solve_bridge_ok E _ _ _ _ _ _ Hj Hb).
  assert (Hrun :
            Solve_cacheExport E ctx (jobOf ctx id) res exp (solved s ctx id req)
            = (Ret ferr,
               completedState E (Job_Context (jobOf ctx id) ctx)
                 "exporting cache" (solved s ctx id req)
                 (addEvents
                    (markerDone E c
                       (startedState E (Job_Context (jobOf ctx id) ctx)
                                     "exporting cache" (solved s ctx id req))
                       (addEvents
                          (markerStarted E c
                             (startedState E (Job_Context (jobOf ctx id) ctx)
                                           "exporting cache"
                                           (solved s ctx id req)))
                          (exportToEvents c e opt (refsOf res))))
                    [EvFinalize e c])
                 ferr)).
  { rewrite (Solve_cacheExport_run E _ _ _ _ _ _ He), cacheExportClosure_run.
    rewrite (eachOf_all_exported E _ _ _ _ _ Hkeys Hans). simpl.
    by rewrite Hfin. }
  unfold Solve_phases, Solve_export, bind. rewrite Hx. simpl. rewrite Hrun.
  destruct ferr as [err|]; simpl;
    unfold returned; simpl; rewrite delete_insert_eq, delete_id by done;
    by rewrite <- !app_assoc.
Qed.

Lemma Solve_cache_export_trace_witness :
  jobs state0 !! "j1" = None
  /\ bridge_Solve (mkEnv (inl res12) (None, None) (fun _ => None)
                         (Some (ErrOther "no space")))
                  (trace state0 ++ [EvNewJob "j1"]) (jobOf ctx0 "j1") ctx0 req0
     = inl res12
  /\ Exporter xrCache = None
  /\ CacheExporter xrCache = Some registryCache
  /\ Forall (fun r => CacheKeys r <> []) (refsOf res12)
  /\ Solve (mkEnv (inl res12) (None, None) (fun _ => None)
                  (Some (ErrOther "no space")))
           ctx0 "j1" req0 xrCache state0
     = (Ret (None, Some (ErrOther "no space")),
        let c := {| ctx_session := "sess"; ctx_job := Some "j1";
                    ctx_meta := [("vertex", "sha256:a")] |} in
        let pw n := {| progress.pw_id := n;
                       progress.pw_meta := [("vertex", "sha256:a")] |} in
        let opt := {| Convert := workerRefConverter; Mode := 1 |} in
        let vertex completed error :=
            {| client.Digest := "sha256:a"; client.Name := "exporting cache";
               client.Started := Some 100;
               client.Completed := completed;
               client.Cached := false;
               client.Error := error |} in
        {| trace :=
             [EvNewJob "j1";
              EvBridgeSolve "j1" ctx0 req0;
              EvWrite (pw 1) "sha256:a" (VVertex (vertex None ""));
              EvClose (pw 1);
              EvWrite (pw 2) "preparing build cache for export"
                      (VStatus {| progress.Started := Some 101;
                                  progress.Completed := None |});
              EvExportTo {| key_id := 10 |} c registryCache opt;
              EvExportTo {| key_id := 20 |} c registryCache opt;
              EvWrite (pw 2) "preparing build cache for export"
                      (VStatus {| progress.Started := Some 101;
                                  progress.Completed := Some 102 |});
              EvClose (pw 2);
              EvFinalize registryCache c;
              EvWrite (pw 3) "sha256:a" (VVertex (vertex (Some 103) "no space"));
              EvClose (pw 3);
              EvClose (pw 0);
              release ref1; release ref2;
              EvDiscard "j1"];
           jobs := ∅; nows := 4; ids := 1; pws := 4 |}).
Proof.
  assert (Hkeys : Forall (fun r => CacheKeys r <> []) (refsOf res12))
    by (repeat constructor; discriminate).
  refine (conj eq_refl (conj eq_refl (conj eq_refl (conj eq_refl
            (conj Hkeys _))))).
  exact (Solve_cache_export_trace
           (mkEnv (inl res12) (None, None) (fun _ => None)
                  (Some (ErrOther "no space")))
           ctx0 "j1" req0 xrCache state0 res12 registryCache
           (Some (ErrOther "no space"))
           eq_refl eq_refl eq_refl eq_refl Hkeys
           (fun _ _ _ _ _ => eq_refl) (fun _ _ => eq_refl)).
Defined.

(** ** Vertices on their own *)

(** X8: when the phase function panics, [inVertexContext] closes its
    writer and the panic goes on: the vertex stays started, no
    completed vertex is written. *)
Theorem inVertexContext_panic (E : Env) {L} ctx name
        (f : Context -> L -> M (option error * L)) captured s msg s2 :
  let dg := digest_FromBytes E (identity_NewID E (ids s)) in
  let child := {| ctx_session := ctx_session ctx; ctx_job := ctx_job ctx;
                  ctx_meta := ctx_meta ctx ++ [("vertex", dg)] |} in
  let pw n := {| progress.pw_id := n; progress.pw_meta := ctx_meta child |} in
  let started := {| client.Digest := dg; client.Name := name;
                    client.Started := Some (time_Now E (nows s));
                    client.Completed := None;
                    client.Cached := false;
                    client.Error := "" |} in
  let s1 := {| trace := trace s ++ [EvWrite (pw (S (pws s))) dg (VVertex started);
                                    EvClose (pw (S (pws s)))];
               jobs := jobs s;
               nows := S (nows s); ids := S (ids s); pws := S (S (pws s)) |} in
  f child captured s1 = (Panic msg, s2) ->
  inVertexContext E ctx name f captured s
  = (Panic msg,
     {| trace := trace s2 ++ [EvClose (pw (pws s))];
        jobs := jobs s2; nows := nows s2; ids := ids s2; pws := pws s2 |}).
Proof.
  intros dg child pw started s1 Hf.
  rewrite inVertexContext_run.
  change (startedState E ctx name s) with s1.
  change (childContext E ctx s) with child.
  by rewrite Hf.
Qed.

(** A phase function that panics *)
Lemma inVertexContext_panic_witness :
  (fun (_ : Context) (_ : nat) => @panic (option error * nat) "nil map")
    (childContext envOk ctx0 state0) 0 (startedState envOk ctx0 "image" state0)
  = (Panic "nil map", startedState envOk ctx0 "image" state0)
  /\ inVertexContext envOk ctx0 "image"
                     (fun _ _ => @panic (option error * nat) "nil map") 0 state0
     = (Panic "nil map",
        let pw n := {| progress.pw_id := n;
                       progress.pw_meta := [("vertex", "sha256:a")] |} in
        {| trace :=
             [EvWrite (pw 1) "sha256:a"
                      (VVertex {| client.Digest := "sha256:a";
                                  client.Name := "image";
                                  client.Started := Some 100;
                                  client.Completed := None;
                                  client.Cached := false;
                                  client.Error := "" |});
              EvClose (pw 1);
              EvClose (pw 0)];
           jobs := ∅; nows := 1; ids := 1; pws := 2 |}).
Proof.
  refine (conj eq_refl _).
  exact (inVertexContext_panic
           envOk ctx0 "image"
           (fun _ _ => @panic (option error * nat) "nil map") 0 state0
           "nil map" (startedState envOk ctx0 "image" state0) eq_refl).
Defined.

Section Notify.

Variable E : Env.

Lemma notifyStarted_run ctx v cached s :
  notifyStarted E ctx v cached s
  = let pw := {| progress.pw_id := pws s; progress.pw_meta := ctx_meta ctx |} in
    let v' := {| client.Digest := client.Digest v;
                 client.Name := client.Name v;
                 client.Started := Some (time_Now E (nows s));
                 client.Completed := None;
                 client.Cached := cached;
                 client.Error := client.Error v |} in
    (Ret v',
     {| trace := trace s ++ [EvWrite pw (client.Digest v) (VVertex v');
                             EvClose pw];
        jobs := jobs s;
        nows := S (nows s); ids := ids s; pws := S (pws s) |}).
Proof.
  unfold notifyStarted, bind, defer. simpl.
  by rewrite app_nil_r, <- app_assoc.
Qed.

Lemma notifyCompleted_run ctx v err cached s :
  notifyCompleted E ctx v err cached s
  = let pw := {| progress.pw_id := pws s; progress.pw_meta := ctx_meta ctx |} in
    let v' := {| client.Digest := client.Digest v;
                 client.Name := client.Name v;
                 client.Started :=
                   match client.Started v with
                   | None => Some (time_Now E (nows s))
                   | Some t => Some t
                   end;
                 client.Completed := Some (time_Now E (nows s));
                 client.Cached := cached;
                 client.Error :=
                   match err with
                   | Some e => Error e
                   | None => client.Error v
                   end |} in
    (Ret v',
     {| trace := trace s ++ [EvWrite pw (client.Digest v) (VVertex v');
                             EvClose pw];
        jobs := jobs s;
        nows := S (nows s); ids := ids s; pws := S (pws s) |}).
Proof.
  unfold notifyCompleted, bind, defer. simpl.
  by rewrite app_nil_r, <- app_assoc.
Qed.

End Notify.

(** X13: [notifyStarted] followed by [notifyCompleted], on any vertex:
    the vertex is written twice under its identity, each time by a new
    writer that is closed right after the write.  The second vertex
    keeps the start time that [notifyStarted] read and is completed at
    the next reading of the clock; its error text is the message of the
    error given to [notifyCompleted], or, without an error, the text
    that the vertex had before. *)
Theorem notifyStarted_then_notifyCompleted (E : Env) ctx v c1 err c2 s :
  let pw n := {| progress.pw_id := n; progress.pw_meta := ctx_meta ctx |} in
  let v1 := {| client.Digest := client.Digest v;
               client.Name := client.Name v;
               client.Started := Some (time_Now E (nows s));
               client.Completed := None;
               client.Cached := c1;
               client.Error := client.Error v |} in
  let v2 := {| client.Digest := client.Digest v;
               client.Name := client.Name v;
               client.Started := Some (time_Now E (nows s));
               client.Completed := Some (time_Now E (S (nows s)));
               client.Cached := c2;
               client.Error := match err with
                               | Some e => Error e
                               | None => client.Error v
                               end |} in
  (do v' <- notifyStarted E ctx v c1; notifyCompleted E ctx v' err c2) s
  = (Ret v2,
     {| trace := trace s ++ [EvWrite (pw (pws s)) (client.Digest v) (VVertex v1);
                             EvClose (pw (pws s));
                             EvWrite (pw (S (pws s))) (client.Digest v)
                                     (VVertex v2);
                             EvClose (pw (S (pws s)))];
        jobs := jobs s;
        nows := S (S (nows s)); ids := ids s; pws := S (S (pws s)) |}).
Proof.
  intros pw v1 v2. unfold bind.
  rewrite notifyStarted_run. simpl. rewrite notifyCompleted_run. simpl.
  by rewrite <- app_assoc.
Qed.

(** X14: [notifyCompleted] on a vertex that was never started gives it
    the completion time as start time.  A vertex completed with an
    error keeps the message of that error when it is started again,
    with its completion time reset to nil, and when it is completed
    again without an error. *)
Theorem notifyCompleted_start_and_stale_error (E : Env) ctx v e c s :
  (client.Started v = None ->
   forall err v' s',
     notifyCompleted E ctx v err c s = (Ret v', s') ->
     client.Started v' = Some (time_Now E (nows s))
     /\ client.Completed v' = Some (time_Now E (nows s)))
  /\ (forall v' s',
         (do v1 <- notifyCompleted E ctx v (Some e) c;
          notifyStarted E ctx v1 c) s = (Ret v', s') ->
         client.Error v' = Error e
         /\ client.Completed v' = None
         /\ client.Started v' = Some (time_Now E (S (nows s))))
  /\ (forall v' s',
         (do v1 <- notifyCompleted E ctx v (Some e) c;
          notifyCompleted E ctx v1 None c) s = (Ret v', s') ->
         client.Error v' = Error e
         /\ client.Completed v' = Some (time_Now E (S (nows s)))).
Proof.
  split_and!.
  - intros Hs err v' s'. rewrite notifyCompleted_run. simpl.
    intros [= <- _]. simpl. by rewrite Hs.
  - intros v' s'. unfold bind. rewrite notifyCompleted_run. simpl.
    rewrite notifyStarted_run. simpl. by intros [= <- _].
  - intros v' s'. unfold bind. rewrite notifyCompleted_run. simpl.
    rewrite notifyCompleted_run. simpl. by intros [= <- _].
Qed.

(** ** The export source *)

Section SourceFacts.



End SourceFacts.



(** ** Which collaborators a call reaches *)

Section Reached.

Variable E : Env.


(** The [Export] calls of the content export *)
Lemma Solve_export_exact ctx j res exp s :
  exists a,
    trace (Solve_export E ctx j res exp s).2 = trace s ++ a
    /\ forallb isContentExport a = true
    /\ (Exporter exp = None -> a = [])
    /\ (exportCalls a = []
        \/ exists x inp,
            Exporter exp = Some x /\ exportSource res = inl inp
            /\ exportCalls a = [(x, inp)]).
Proof.
  destruct (Exporter exp) as [x|] eqn:Hx.
  - destruct (exportSource res) as [inp|err] eqn:Hsrc.
    + rewrite (Solve_export_run E _ _ _ _ _ _ _ Hx Hsrc). simpl.
      eexists. rewrite <- !app_assoc. simpl.
      split_and!; [reflexivity | done | done |].
      right. by exists x, inp.
    + unfold Solve_export. rewrite Hx, Hsrc. simpl.
      exists []. rewrite app_nil_r. split_and!; [done | done | done | by left].
  - unfold Solve_export. rewrite Hx. simpl.
    exists []. rewrite app_nil_r. split_and!; [done | done | done | by left].
Qed.

(** The events of the cache export, with or without a cache exporter *)
Lemma Solve_cacheExport_quiet ctx j res exp s :
  exists b,
    trace (Solve_cacheExport E ctx j res exp s).2 = trace s ++ b
    /\ forallb isCacheExport b = true
    /\ (CacheExporter exp = None -> b = []).
Proof.
  destruct (CacheExporter exp) as [e|] eqn:He.
  - destruct (Solve_cacheExport_events E ctx j res exp e s He)
      as (b & Ht & Hb & _).
    exists b. by split_and!.
  - unfold Solve_cacheExport. rewrite He. simpl.
    exists []. by rewrite app_nil_r.
Qed.

Lemma Solve_phases_reached ctx j res exp s :
  exists new,
    trace (Solve_phases E ctx j res exp s).2 = trace s ++ new
    /\ forallb isPhase new = true
    /\ (Exporter exp = None -> exportCalls new = [])
    /\ (exportCalls new = []
        \/ exists x inp,
            Exporter exp = Some x /\ exportSource res = inl inp
            /\ exportCalls new = [(x, inp)])
    /\ (CacheExporter exp = None ->
        exportToCalls new = [] /\ finalizeCalls new = []).
Proof.
  destruct (emits_Solve_phases E ctx j res exp s) as (new0 & Ht0 & Hp0 & _).
  unfold Solve_phases, bind in *.
  destruct (Solve_export_exact ctx j res exp s) as (a & Ht & Ha & Hnone & Hcalls).
  destruct (Solve_export E ctx j res exp s) as [[[resp|err]|msg] s1];
    simpl in Ht.
  - destruct (Solve_cacheExport_quiet ctx j res exp s1) as (b & Htb & Hb & Hbn).
    assert (Hnew : new0 = a ++ b).
    { destruct (Solve_cacheExport E ctx j res exp s1) as [[[err|]|msg] s2];
        simpl in *; rewrite Htb, Ht, <- app_assoc in Ht0;
        by apply app_inv_head in Ht0. }
    exists new0. subst new0.
    split_and!; [done | done | | | ].
    + intros Hx. by rewrite exportCalls_app, (Hnone Hx), (exportCalls_cache _ Hb).
    + rewrite exportCalls_app, (exportCalls_cache _ Hb), app_nil_r. exact Hcalls.
    + intros Hc. rewrite (Hbn Hc), app_nil_r.
      split; [by apply exportToCalls_content | by apply finalizeCalls_content].
  - simpl in Ht0. rewrite Ht in Ht0. apply app_inv_head in Ht0. subst new0.
    exists a. split_and!; [done | done | | done | ].
    + intros Hx. by rewrite (Hnone Hx).
    + intros _.
      split; [by apply exportToCalls_content | by apply finalizeCalls_content].
  - simpl in Ht0. rewrite Ht in Ht0. apply app_inv_head in Ht0. subst new0.
    exists a. split_and!; [done | done | | done | ].
    + intros Hx. by rewrite (Hnone Hx).
    + intros _.
      split; [by apply exportToCalls_content | by apply finalizeCalls_content].
Qed.

End Reached.

Lemma exportCalls_release l : exportCalls (map release l) = [].
Proof. by induction l. Qed.

(** X16: a call of Solve reaches only the exporters of its request.
    Without a content exporter it makes no [Export] call; with one it
    makes at most one, on that exporter, with the export source made of
    the Result.  Without a cache exporter it makes no [ExportTo] call
    and no [Finalize] call. *)
Theorem Solve_reaches_only_its_exporters (E : Env) ctx id req exp s res :
  jobs s !! id = None ->
  bridge_Solve E (trace s ++ [EvNewJob id]) (jobOf ctx id) ctx req = inl res ->
  exists new,
    trace (Solve E ctx id req exp s).2 = trace s ++ new
    /\ (Exporter exp = None -> exportCalls new = [])
    /\ (exportCalls new = []
        \/ exists x inp,
            Exporter exp = Some x /\ exportSource res = inl inp
            /\ exportCalls new = [(x, inp)])
    /\ (CacheExporter exp = None ->
        exportToCalls new = [] /\ finalizeCalls new = []).
Proof.
  intros Hj Hb. rewrite (Solve_bridge_ok E _ _ _ _ _ _ Hj Hb). simpl.
  destruct (Solve_phases_reached E ctx (jobOf ctx id) res exp
                                 (solved s ctx id req))
    as (new & Ht & _ & Hx & Hcalls & Hc).
  exists ([EvNewJob id; EvBridgeSolve id ctx req] ++ new
          ++ map release (refsOf res) ++ [EvDiscard id]).
  assert (Hsame :
            exportCalls ([EvNewJob id; EvBridgeSolve id ctx req] ++ new
                         ++ map release (refsOf res) ++ [EvDiscard id])
            = exportCalls new).
  { rewrite !exportCalls_app, exportCalls_release. simpl.
    by rewrite app_nil_r. }
  rewrite Hsame. split_and!.
  - rewrite Ht. simpl. by rewrite <- !app_assoc.
  - done.
  - done.
  - intros Hnone. destruct (Hc Hnone) as [H1 H2].
    rewrite !exportToCalls_app, !finalizeCalls_app, H1, H2,
      exportToCalls_release, finalizeCalls_release. done.
Qed.

Lemma Solve_reaches_only_its_exporters_witness :
  jobs state0 !! "j1" = None
  /\ bridge_Solve envOk (trace state0 ++ [EvNewJob "j1"])
                  (jobOf ctx0 "j1") ctx0 req0 = inl res12
  /\ exists new,
      trace (Solve envOk ctx0 "j1" req0 xrContent state0).2
      = trace state0 ++ new
      /\ (Exporter xrContent = None -> exportCalls new = [])
      /\ (exportCalls new = []
          \/ exists x inp,
              Exporter xrContent = Some x /\ exportSource res12 = inl inp
              /\ exportCalls new = [(x, inp)])
      /\ (CacheExporter xrContent = None ->
          exportToCalls new = [] /\ finalizeCalls new = []).
Proof.
  refine (conj eq_refl (conj eq_refl _)).
  exact (Solve_reaches_only_its_exporters envOk ctx0 "j1" req0 xrContent
                                          state0 res12 eq_refl eq_refl).
Defined.


